(** * State-space search over the four-sided dominoes puzzle

    A shallow embedding of the two programs of the repository,

    - [m3project_UninformedSearch.py]: depth-limited DFS, the iterative
      deepening driver built on it, and the puzzle they are run on;
    - [m3project-InformedSearch.py]: the A* engine over Python's
      [queue.PriorityQueue], its mismatch-count heuristic, and the puzzle
      variant that carries a goal configuration;

    followed by the properties of the engines and of the puzzle.  Python
    exceptions are explicit: every operation that can raise returns a
    [result]; loops that need not terminate take fuel and return
    [option (result _)], where [None] means the fuel ran out. *)

From Stdlib Require Import ZArith Lia.
From stdpp Require Import base numbers option countable list sorting sets gmap.

(** ** The fragment of Python the programs rely on *)
Module Py.

Inductive exn : Set :=
| AssertionError | AttributeError | IndexError | KeyError
| TypeError | ValueError.

Inductive result (A : Type) : Type :=
| Ok (a : A)
| Raise (e : exn).
Global Arguments Ok {A} a.
Global Arguments Raise {A} e.

Global Instance result_ret : MRet result := @Ok.
Global Instance result_bind : MBind result := λ A B f m,
  match m with Ok a => f a | Raise e => Raise e end.

(** [assert c] *)
Definition assert (c : bool) : result unit :=
  if c then Ok tt else Raise AssertionError.

(** [range(lo, hi)] *)
Definition range (lo hi : Z) : list Z :=
  map (λ k : nat, (lo + Z.of_nat k)%Z) (seq 0 (Z.to_nat (hi - lo))).

(** [l[i]]: a negative index counts from the end. *)
Definition getitem {A} (l : list A) (i : Z) : result A :=
  let k := if (i <? 0)%Z then (Z.of_nat (length l) + i)%Z else i in
  if (k <? 0)%Z then Raise IndexError
  else match l !! Z.to_nat k with
       | Some x => Ok x
       | None => Raise IndexError
       end.

(** [l[i] = x] *)
Definition setitem {A} (l : list A) (i : Z) (x : A) : result (list A) :=
  let k := if (i <? 0)%Z then (Z.of_nat (length l) + i)%Z else i in
  if (k <? 0)%Z then Raise IndexError
  else if (k <? Z.of_nat (length l))%Z then Ok (<[Z.to_nat k := x]> l)
  else Raise IndexError.

(** [g[r][c]] and [g[r][c] = x] on a list of lists. *)
Definition getitem2 {A} (g : list (list A)) (r c : Z) : result A :=
  row ← getitem g r; getitem row c.

Definition setitem2 {A} (g : list (list A)) (r c : Z) (x : A)
  : result (list (list A)) :=
  row ← getitem g r; row' ← setitem row c x; setitem g r row'.

(** [l.pop()]: removes and returns the last element. *)
Definition pop {A} (l : list A) : result (A * list A) :=
  match reverse l with
  | [] => Raise IndexError
  | x :: r => Ok (x, reverse r)
  end.

(** [l[lo:hi]]: a negative bound counts from the end, and both bounds are
    cut to the length of the list. *)
Definition clip {A} (l : list A) (i : Z) : nat :=
  let n := Z.of_nat (length l) in
  Z.to_nat (if (i <? 0)%Z then Z.max 0 (n + i) else Z.min i n).
Definition slice {A} (l : list A) (lo hi : Z) : list A :=
  take (clip l hi - clip l lo) (drop (clip l lo) l).

(** [for x in l: s = body(x, s)] *)
Fixpoint for_each {A S} (l : list A) (s : S) (body : A → S → result S)
  : result S :=
  match l with
  | [] => Ok s
  | x :: l' => s' ← body x s; for_each l' s' body
  end.

(** A [for] loop whose body may [return]: [Some r] leaves the loop. *)
Fixpoint for_return {A R} (l : list A) (body : A → result (option R))
  : result (option R) :=
  match l with
  | [] => Ok None
  | x :: l' =>
      r ← body x;
      match r with
      | Some v => Ok (Some v)
      | None => for_return l' body
      end
  end.

(** [a < b] on tuples: the first position where the two differ decides;
    when one is a prefix of the other the shorter is the smaller. *)
Fixpoint tuple_lt {A} `{EqDecision A} (lt : A → A → result bool)
  (x y : list A) : result bool :=
  match x, y with
  | [], [] => Ok false
  | [], _ :: _ => Ok true
  | _ :: _, [] => Ok false
  | a :: x', b :: y' =>
      if decide (a = b) then tuple_lt lt x' y' else lt a b
  end.

End Py.
Import Py.

(** ** The tile, identical in both programs *)
Module Tile.

(** [Domino] defines neither [__eq__] nor [__hash__] nor [__lt__]: two
    tiles are equal exactly when they are the same object.  [ident]
    stands for that identity; the four faces are never reassigned. *)
Record Domino : Set := mkDomino
  { ident : nat; top : Z; right : Z; bottom : Z; left : Z }.

Global Instance Domino_eq_dec : EqDecision Domino.
Proof. solve_decision. Defined.

Definition Domino_faces (d : Domino) : nat * Z * Z * Z * Z :=
  (ident d, top d, right d, bottom d, left d).
Definition Domino_of_faces (t : nat * Z * Z * Z * Z) : Domino :=
  let '(i, a, b, c, d) := t in mkDomino i a b c d.
Lemma Domino_of_faces_faces d : Domino_of_faces (Domino_faces d) = d.
Proof. by destruct d. Qed.

Global Instance Domino_countable : Countable Domino :=
  inj_countable' Domino_faces Domino_of_faces Domino_of_faces_faces.

Definition is_above (self other : Domino) : bool :=
  (bottom self =? top other)%Z.
Definition is_under (self other : Domino) : bool :=
  (top self =? bottom other)%Z.
Definition is_on_the_left_of (self other : Domino) : bool :=
  (right self =? left other)%Z.
Definition is_on_the_right_of (self other : Domino) : bool :=
  (left self =? right other)%Z.

(** [a < b] on tiles is not supported. *)
Definition Domino_lt (a b : Domino) : result bool := Raise TypeError.

(** A puzzle configuration: a tuple of rows, each a tuple of tiles. *)
Abbreviation grid := (list (list Domino)).

(** ((row1, col1), (row2, col2)) *)
Abbreviation action := ((Z * Z) * (Z * Z))%type.

(** *** Vocabulary for statements about grids *)

(** [n] rows of [n] tiles. *)
Definition square (n : Z) (g : grid) : Prop :=
  Z.of_nat (length g) = n ∧ Forall (λ row, Z.of_nat (length row) = n) g.

Definition in_grid (n : Z) (p : Z * Z) : Prop :=
  (0 ≤ p.1 < n)%Z ∧ (0 ≤ p.2 < n)%Z.

(** The tile at a position of the grid. *)
Definition cell (g : grid) (p : Z * Z) : option Domino :=
  row ← g !! Z.to_nat p.1; row !! Z.to_nat p.2.

(** The transposition of the positions [p] and [q]. *)
Definition exchange (p q x : Z * Z) : Z * Z :=
  if decide (x = p) then q else if decide (x = q) then p else x.

(** [g'] is [g] with the tiles at [p] and [q] swapped. *)
Definition swapped (n : Z) (g : grid) (p q : Z * Z) (g' : grid) : Prop :=
  square n g' ∧ ∀ x, in_grid n x → cell g' x = cell g (exchange p q x).

(** Every tile fits the one above it and the one on its left. *)
Definition fits (n : Z) (g : grid) : Prop :=
  ∀ i j x, (0 ≤ i < n)%Z → (0 ≤ j < n)%Z → cell g (i, j) = Some x →
    (∀ y, (0 < i)%Z → cell g (i - 1, j)%Z = Some y → top x = bottom y)
    ∧ (∀ y, (0 < j)%Z → cell g (i, j - 1)%Z = Some y → left x = right y).

(** The position of the [k]-th tile in row-major order. *)
Definition position (n k : Z) : Z * Z := ((k / n)%Z, (k mod n)%Z).

(** Its inverse: the rank of a position in row-major order. *)
Definition index (n : Z) (p : Z * Z) : Z := (p.1 * n + p.2)%Z.

(** The pairs [i < j] below [m], in the order of two nested loops. *)
Definition pairs (m : Z) : list (Z * Z) :=
  i ← range 0 m; j ← range (i + 1) m; [(i, j)].

(** *** Random grids: the body of [__get_random_state] *)
Section random.
(** [randint k] is the [k]-th number that [random.randint(1, 9)] hands
    out. *)
Context (randint : nat → Z).

(** The two loops that build [temp]; the state is [temp] and the number of
    draws made so far.  The arguments of [Domino(...)] are evaluated from
    left to right; every call makes a new object, whose [ident] is its
    rank of creation. *)
Definition draw_tiles (n : Z) : result (list Domino * nat) :=
  for_each (range 0 n) ([], 0) (λ i s,
    for_each (range 0 n) s (λ j '(temp, k),
      '(tp, k) ← (if (i =? 0)%Z then Ok (randint k, S k)
                  else d ← getitem temp ((i - 1) * n + j); Ok (bottom d, k));
      let '(rt, k) := (randint k, S k) in
      let '(bt, k) := (randint k, S k) in
      '(lf, k) ← (if (j =? 0)%Z then Ok (randint k, S k)
                  else d ← getitem temp (i * n + j - 1); Ok (right d, k));
      Ok (temp ++ [mkDomino (length temp) tp rt bt lf], k))).

(** [tuple(tuple(temp[i*N:(i+1)*N]) for i in range(N))] *)
Definition rows_of (n : Z) (temp : list Domino) : grid :=
  map (λ i, slice temp (i * n) ((i + 1) * n)) (range 0 n).

End random.

End Tile.
Import Tile.

(** ** m3project_UninformedSearch.py *)
Module Uninformed.

(** The abstract methods of [DepthLimitedDFS]. *)
Class Problem (State Action : Type) := {
  successor : State → result (list (Action * State));
  goal_test : State → result bool;
}.

(** *** class DepthLimitedDFS *)
Module DepthLimitedDFS.
Section engine.
Context {State Action : Type} `{Countable State}.
Context {P : Problem State Action}.

(** An entry of the stack: (state, depth, action). *)
Definition entry : Type := State * nat * option Action.

(** The local variables of [DepthLimitedDFS.search]. *)
Record locals : Type := mkLocals {
  num_expanded_states : nat;
  path : list State;
  solution : list (option Action);
  visited_states : gset State;
  states_to_expand : list entry;
}.

Definition answer : Type := option (list (option Action)) * nat.

Inductive next : Type :=
| Continue (σ : locals)
| Return (r : answer).

Definition initial (state : State) : locals :=
  mkLocals 0 [] [] ∅ [(state, 0, None)].

(** [visited_states.remove(x)] *)
Definition remove (x : State) (v : gset State) : result (gset State) :=
  if decide (x ∈ v) then Ok (v ∖ {[x]}) else Raise KeyError.

(** Lines 60-62: [while len(solution) > depth: ...].  Every turn
    shortens [solution], so its length bounds the number of turns: started
    with [turns = length sol], the loop never sees [turns = 0] with its
    condition true. *)
Fixpoint clean_loop (turns : nat) (depth : nat)
  (sol : list (option Action)) (pth : list State) (vis : gset State)
  : result (list (option Action) * list State * gset State) :=
  if decide (depth < length sol) then
    match turns with
    | 0 => Ok (sol, pth, vis)
    | S turns' =>
        '(_, sol') ← pop sol;
        '(s, pth') ← pop pth;
        vis' ← remove s vis;
        clean_loop turns' depth sol' pth' vis'
    end
  else Ok (sol, pth, vis).

Definition clean (depth : nat) (σ : locals) : result locals :=
  '(sol, pth, vis) ← clean_loop (length (solution σ)) depth
                       (solution σ) (path σ) (visited_states σ);
  Ok (mkLocals (num_expanded_states σ) pth sol vis (states_to_expand σ)).

(** Lines 64-67. *)
Definition add_current (e : entry) (σ : locals) : locals :=
  let '(state, depth, action) := e in
  mkLocals (num_expanded_states σ + 1)
           (path σ ++ [state])
           (solution σ ++ [action])
           (visited_states σ ∪ {[state]})
           (states_to_expand σ).

(** Lines 60-67: the popped entry is taken onto the path. *)
Definition accept (e : entry) (σ : locals) : result locals :=
  σ' ← clean (snd (fst e)) σ; Ok (add_current e σ').

(** Lines 72-74. *)
Definition push_children (depth : nat) (children : list (Action * State))
  (σ : locals) : locals :=
  mkLocals (num_expanded_states σ) (path σ) (solution σ)
           (visited_states σ)
           (states_to_expand σ
              ++ map (λ '(action, child), (child, depth + 1, Some action))
                     children).

Definition set_stack (stk : list entry) (σ : locals) : locals :=
  mkLocals (num_expanded_states σ) (path σ) (solution σ)
           (visited_states σ) stk.

(** Line 57. *)
Definition ignored (limit : Z) (e : entry) (σ : locals) : bool :=
  bool_decide (fst (fst e) ∈ visited_states σ)
  || (limit <? Z.of_nat (snd (fst e)))%Z.

(** One turn of the [while states_to_expand] loop (lines 55-74). *)
Definition iteration (limit : Z) (σ : locals) : result next :=
  '(e, stk) ← pop (states_to_expand σ);
  let σ := set_stack stk σ in
  if ignored limit e σ then Ok (Continue σ)
  else
    σ ← accept e σ;
    g ← goal_test (fst (fst e));
    if g : bool
    then Ok (Return (Some (tail (solution σ)), num_expanded_states σ))
    else
      children ← successor (fst (fst e));
      Ok (Continue (push_children (snd (fst e)) children σ)).

Fixpoint search_loop (fuel : nat) (limit : Z) (σ : locals)
  : option (result answer) :=
  match fuel with
  | 0 => None
  | S fuel' =>
      match states_to_expand σ with
      | [] => Some (Ok (None, num_expanded_states σ))
      | _ :: _ =>
          match iteration limit σ with
          | Raise e => Some (Raise e)
          | Ok (Return r) => Some (Ok r)
          | Ok (Continue σ') => search_loop fuel' limit σ'
          end
      end
  end.

(** The number of stack entries that the subtree below an entry with
    [k] levels left can produce, the entry included. *)
Fixpoint tree_size (k : nat) (s : State) : nat :=
  match k with
  | 0 => 1
  | S k' =>
      match successor s with
      | Ok l => S (sum_list_with (λ ac, tree_size k' ac.2) l)
      | Raise _ => 1
      end
  end.

Definition levels (limit : Z) (depth : nat) : nat :=
  Z.to_nat (limit - Z.of_nat depth + 1).

Definition search_fuel (state : State) (limit : Z) : nat :=
  S (tree_size (levels limit 0) state).

(** [DepthLimitedDFS.search(state, limit)] *)
Definition search (state : State) (limit : Z) : option (result answer) :=
  search_loop (search_fuel state limit) limit (initial state).

(** *** Vocabulary for statements about the loop *)

(** The values the locals take at the head of the loop. *)
Inductive reachable (limit : Z) (start : State) : locals → Prop :=
| reachable_initial : reachable limit start (initial start)
| reachable_turn σ σ' :
    reachable limit start σ →
    iteration limit σ = Ok (Continue σ') →
    reachable limit start σ'.

(** Every state of the list is a successor of the one before it. *)
Definition linked (pth : list State) : Prop :=
  ∀ i p c, pth !! i = Some p → pth !! S i = Some c →
           ∃ l a, successor p = Ok l ∧ (a, c) ∈ l.

Definition path_from (start : State) (pth : list State) : Prop :=
  head pth = Some start ∧ linked pth.

(** [replays s acts f]: taking the actions [acts] one after the other, each
    among the successors of the state reached so far, leads from [s] to
    [f]. *)
Inductive replays : State → list (option Action) → State → Prop :=
| replays_nil s : replays s [] s
| replays_cons s a c acts f l :
    successor s = Ok l → (a, c) ∈ l → replays c acts f →
    replays s (Some a :: acts) f.

End engine.
End DepthLimitedDFS.

(** *** class IterativeDeepening *)
Module IterativeDeepening.
Section engine.
Context {State Action : Type} `{Countable State}.
Context {P : Problem State Action}.

Definition max_limit : Z := 3.
Definition max_total_expanded : Z := 50000.

(** The [while limit <= max_limit] loop (lines 157-179);
    [num_successor_states] is written and never read. *)
Fixpoint deepen (fuel : nat) (state : State)
  (total_expanded_states : nat) (last_expanded_states : Z) (limit : Z)
  : option (result (@DepthLimitedDFS.answer Action)) :=
  match fuel with
  | 0 => None
  | S fuel' =>
      if (limit <=? max_limit)%Z then
        if (max_total_expanded <=? Z.of_nat total_expanded_states)%Z
        then Some (Ok (None, total_expanded_states))
        else
          match DepthLimitedDFS.search state limit with
          | None => None
          | Some (Raise e) => Some (Raise e)
          | Some (Ok (solution, num_expanded_states)) =>
              if (Z.of_nat num_expanded_states =? last_expanded_states)%Z
              then Some (Ok (None, total_expanded_states))
              else
                let last_expanded_states := Z.of_nat num_expanded_states in
                let total_expanded_states :=
                  total_expanded_states + num_expanded_states in
                match successor state with
                | Raise e => Some (Raise e)
                | Ok _ =>
                    match solution with
                    | Some sol => Some (Ok (Some sol, total_expanded_states))
                    | None =>
                        deepen fuel' state total_expanded_states
                               last_expanded_states (limit + 1)
                    end
                end
          end
      else Some (Ok (None, total_expanded_states))
  end.

(** [IterativeDeepening.search(state)]: the limit runs over 0..3, so
    five turns of the loop reach its exit test. *)
Definition search (state : State)
  : option (result (@DepthLimitedDFS.answer Action)) :=
  deepen (Z.to_nat (max_limit + 2)) state 0 (-1) 0.

End engine.
End IterativeDeepening.

(** *** class FourDominoes *)
Module FourDominoes.

(** The attributes of an instance. *)
Record t : Type := mk { N : Z; state : grid }.

(** [FourDominoes(N, state)] with a state given; the random instance of
    the [state is None] branch is passed in as [fresh]. *)
Definition init (N : Z) (state : option grid) (fresh : grid)
  : result t :=
  _ ← assert ((2 <=? N)%Z && (N <=? 4)%Z);
  match state with
  | Some st =>
      _ ← assert (Z.of_nat (length st) =? N)%Z;
      _ ← for_each st tt (λ row _, assert (Z.of_nat (length row) =? N)%Z);
      Ok (mk N st)
  | None => Ok (mk N fresh)
  end.

(** [__get_random_state()]; it reads [self.N] only.  [shuffle] is the
    rearrangement that [random.shuffle(temp)] makes. *)
Definition get_random_state (randint : nat → Z)
  (shuffle : list Domino → list Domino) (n : Z) : result grid :=
  '(temp, _) ← draw_tiles randint n;
  let temp := shuffle temp in
  Ok (rows_of n temp).

(** [FourDominoes(N)]: the constructor on its [state is None] branch. *)
Definition init_random (randint : nat → Z)
  (shuffle : list Domino → list Domino) (N : Z) : result t :=
  _ ← assert ((2 <=? N)%Z && (N <=? 4)%Z);
  st ← get_random_state randint shuffle N;
  Ok (mk N st).

Definition valid_coord (self : t) (x : Z) : bool :=
  (0 <=? x)%Z && (x <? N self)%Z.

(** [move(action)]: the new value of [self]. *)
Definition move (self : t) (a : action) : result t :=
  let '((r1, c1), (r2, c2)) := a in
  _ ← assert (valid_coord self r1 && valid_coord self c1
              && valid_coord self r2 && valid_coord self c2);
  let temp := map (λ row : list Domino, row) (state self) in
  v2 ← getitem2 temp r2 c2;
  v1 ← getitem2 temp r1 c1;
  temp ← setitem2 temp r1 c1 v2;
  temp ← setitem2 temp r2 c2 v1;
  Ok (mk (N self) temp).

Definition successor (self : t) (st : grid)
  : result (list (action * grid)) :=
  let n := N self in
  for_each (range 0 (n * n)) [] (λ i successors,
    let r1 := (i / n)%Z in
    let c1 := (i mod n)%Z in
    for_each (range (i + 1) (n * n)) successors (λ j successors,
      let r2 := (j / n)%Z in
      let c2 := (j mod n)%Z in
      let a := ((r1, c1), (r2, c2)) in
      copy ← init n (Some st) [];
      copy ← move copy a;
      Ok (successors ++ [(a, state copy)]))).

Definition goal_test (self : t) (st : grid) : result bool :=
  let n := N self in
  r ← for_return (range 0 n) (λ i,
        for_return (range 0 n) (λ j,
          up ← (if (0 <? i)%Z then
                  x ← getitem2 st i j; y ← getitem2 st (i - 1) j;
                  Ok (negb (is_under x y))
                else Ok false);
          if up : bool then Ok (Some false)
          else
            lf ← (if (0 <? j)%Z then
                    x ← getitem2 st i j; y ← getitem2 st i (j - 1);
                    Ok (negb (is_on_the_right_of x y))
                  else Ok false);
            if lf : bool then Ok (Some false) else Ok None));
  Ok (default true r).

(** The instance as the search engines see it. *)
Definition problem (self : t) : Problem grid action :=
  Build_Problem grid action (successor self) (goal_test self).

End FourDominoes.

End Uninformed.

(** ** m3project-InformedSearch.py *)
Module Informed.

(** A cost: an [int], or [math.inf]. *)
Inductive num : Set :=
| Fin (z : Z)
| Inf.

Global Instance num_eq_dec : EqDecision num.
Proof. solve_decision. Defined.

Definition num_lt (a b : num) : bool :=
  match a, b with
  | Fin x, Fin y => (x <? y)%Z
  | Fin _, Inf => true
  | Inf, _ => false
  end.

(** What [successor] hands back for one transition.  The abstract method
    documents pairs (action, state); the loop header of [Astar.search]
    unpacks four names. *)
Inductive item (State Action : Type) : Type :=
| Tuple2 (a : Action) (s : State)
| Tuple4 (a : Action) (s : State) (act_cost heur_cost : Z).
Global Arguments Tuple2 {State Action} a s.
Global Arguments Tuple4 {State Action} a s act_cost heur_cost.

(** The methods [Astar.search] calls on [self], and [<] on the states and
    actions it stores in the queue.  [heuristicfunction] is written in
    [Astar] itself, over the attributes [N] and [goal_state] of the
    subclass: see [FourDominoes.heuristicfunction]. *)
Class Problem (State Action : Type) := {
  successor : State → result (list (item State Action));
  goal_test : State → result bool;
  heuristicfunction : State → result Z;
  state_lt : State → State → result bool;
  action_lt : Action → Action → result bool;
}.

(** *** class Astar *)
Module Astar.
Section engine.
Context {State Action : Type} `{Countable State} `{EqDecision Action}.
Context {P : Problem State Action}.

(** (heur_cost, path_cost, state, parent, action) *)
Definition entry : Type := num * Z * State * Z * option Action.

Definition option_lt (a b : option Action) : result bool :=
  match a, b with
  | Some x, Some y => action_lt x y
  | _, _ => Raise TypeError
  end.

(** [x < y] on queue entries: Python compares tuples position by
    position and asks [<] of the first pair that is not equal. *)
Definition entry_lt (x y : entry) : result bool :=
  let '(f1, g1, s1, p1, a1) := x in
  let '(f2, g2, s2, p2, a2) := y in
  if decide (f1 ≠ f2) then Ok (num_lt f1 f2)
  else if decide (g1 ≠ g2) then Ok (g1 <? g2)%Z
  else if decide (s1 ≠ s2) then state_lt s1 s2
  else if decide (p1 ≠ p2) then Ok (p1 <? p2)%Z
  else if decide (a1 ≠ a2) then option_lt a1 a2
  else Ok false.

(** *** [queue.PriorityQueue]: [heapq] on a list *)

(** [_siftdown(heap, startpos, pos)]; [pos] shrinks every turn. *)
Fixpoint siftdown_loop (turns : nat) (heap : list entry)
  (startpos pos : nat) (newitem : entry) : result (list entry) :=
  match turns with
  | 0 => Ok (<[pos := newitem]> heap)
  | S turns' =>
      if decide (startpos < pos) then
        let parentpos := (pos - 1) / 2 in
        match heap !! parentpos with
        | None => Raise IndexError
        | Some parent =>
            lt ← entry_lt newitem parent;
            if lt : bool then
              siftdown_loop turns' (<[pos := parent]> heap)
                            startpos parentpos newitem
            else Ok (<[pos := newitem]> heap)
        end
      else Ok (<[pos := newitem]> heap)
  end.

Definition siftdown (heap : list entry) (startpos pos : nat)
  : result (list entry) :=
  match heap !! pos with
  | None => Raise IndexError
  | Some newitem => siftdown_loop pos heap startpos pos newitem
  end.

(** The loop of [_siftup(heap, pos)]: the smaller child moves up until
    a leaf is reached; returns the heap and the final [pos]. *)
Fixpoint siftup_loop (turns : nat) (heap : list entry) (pos : nat)
  : result (list entry * nat) :=
  let endpos := length heap in
  let childpos := 2 * pos + 1 in
  match turns with
  | 0 => Ok (heap, pos)
  | S turns' =>
      if decide (childpos < endpos) then
        let rightpos := childpos + 1 in
        childpos ←
          (if decide (rightpos < endpos) then
             match heap !! childpos, heap !! rightpos with
             | Some l, Some r =>
                 lt ← entry_lt l r;
                 Ok (if lt : bool then childpos else rightpos)
             | _, _ => Raise IndexError
             end
           else Ok childpos);
        match heap !! childpos with
        | None => Raise IndexError
        | Some c => siftup_loop turns' (<[pos := c]> heap) childpos
        end
      else Ok (heap, pos)
  end.

Definition siftup (heap : list entry) (pos : nat) : result (list entry) :=
  match heap !! pos with
  | None => Raise IndexError
  | Some newitem =>
      '(heap, pos') ← siftup_loop (length heap) heap pos;
      siftdown (<[pos' := newitem]> heap) pos pos'
  end.

(** [PriorityQueue.put] *)
Definition heappush (heap : list entry) (x : entry) : result (list entry) :=
  siftdown (heap ++ [x]) 0 (length heap).

(** [PriorityQueue.get] on a queue that is not empty. *)
Definition heappop (heap : list entry) : result (entry * list entry) :=
  '(lastelt, heap) ← pop heap;
  match heap with
  | [] => Ok (lastelt, [])
  | returnitem :: _ =>
      heap ← siftup (<[0 := lastelt]> heap) 0;
      Ok (returnitem, heap)
  end.

(** *** [Astar.search] *)

Record locals : Type := mkLocals {
  num_expanded_states : nat;
  expanded_states : list (Z * option Action);
  visited_states : gset State;
  states_to_expand : list entry;
}.

Definition answer : Type := option (list (option Action)) * num * nat.

Inductive next : Type :=
| Continue (σ : locals)
| Goal (σ : locals) (path_cost : Z) (parent : Z) (action : option Action).

Definition initial (state : State) : locals :=
  mkLocals 0 [] ∅ [(Inf, 0%Z, state, (-1)%Z, None)].

Definition set_queue (q : list entry) (σ : locals) : locals :=
  mkLocals (num_expanded_states σ) (expanded_states σ)
           (visited_states σ) q.

(** Lines 91-93. *)
Definition add_current (state : State) (parent : Z)
  (action : option Action) (σ : locals) : locals :=
  mkLocals (num_expanded_states σ + 1)
           (expanded_states σ ++ [(parent, action)])
           (visited_states σ ∪ {[state]})
           (states_to_expand σ).

(** [action, child, act_cost, heur_cost = it] *)
Definition unpack4 (it : item State Action)
  : result (Action * State * Z * Z) :=
  match it with
  | Tuple4 a s c h => Ok (a, s, c, h)
  | Tuple2 _ _ => Raise ValueError
  end.

(** Lines 103-107: the body of the loop over the successors. *)
Definition push_child (num_expanded_states : nat)
  (it : item State Action) (q : list entry) : result (list entry) :=
  '(action, child, act_cost, heur_cost) ← unpack4 it;
  heur_cost ← heuristicfunction child;
  let path_cost := 1%Z in
  let act_cost := 1%Z in
  heappush q (Fin (heur_cost + act_cost + path_cost),
              (act_cost + path_cost)%Z, child,
              (Z.of_nat num_expanded_states - 1)%Z, Some action).

(** One turn of the [while not states_to_expand.empty()] loop, up to
    the goal test (lines 86-95) and through the expansion
    (lines 103-107). *)
Definition iteration (σ : locals) : result next :=
  '(e, q) ← heappop (states_to_expand σ);
  let '(heur_cost, path_cost, state, parent, action) := e in
  let σ := set_queue q σ in
  if decide (state ∈ visited_states σ) then Ok (Continue σ)
  else
    let σ := add_current state parent action σ in
    g ← goal_test state;
    if g : bool then Ok (Goal σ path_cost parent action)
    else
      items ← successor state;
      q ← for_each items (states_to_expand σ)
            (push_child (num_expanded_states σ));
      Ok (Continue (set_queue q σ)).

(** Lines 97-99: [while parent != -1: ...].  Every parent was recorded
    before its children, so the walk takes at most one turn for each record
    and one more to see [-1]. *)
Fixpoint backtrack (fuel : nat) (expanded : list (Z * option Action))
  (parent : Z) (action : option Action) (sol : list (option Action))
  : option (result (list (option Action))) :=
  match fuel with
  | 0 => None
  | S fuel' =>
      if decide (parent ≠ (-1)%Z) then
        match getitem expanded parent with
        | Raise e => Some (Raise e)
        | Ok (parent', action') =>
            backtrack fuel' expanded parent' action' (sol ++ [action])
        end
      else Some (Ok sol)
  end.

Fixpoint search_loop (fuel : nat) (σ : locals) : option (result answer) :=
  match fuel with
  | 0 => None
  | S fuel' =>
      match states_to_expand σ with
      | [] => Some (Ok (None, Inf, num_expanded_states σ))
      | _ :: _ =>
          match iteration σ with
          | Raise e => Some (Raise e)
          | Ok (Continue σ') => search_loop fuel' σ'
          | Ok (Goal σ' path_cost parent action) =>
              match backtrack (S (length (expanded_states σ')))
                              (expanded_states σ') parent action [] with
              | None => None
              | Some (Raise e) => Some (Raise e)
              | Some (Ok sol) =>
                  Some (Ok (Some (reverse sol), Fin path_cost,
                            num_expanded_states σ'))
              end
          end
      end
  end.

(** [Astar.search(state)], with [fuel] turns of its main loop allowed. *)
Definition search (fuel : nat) (state : State) : option (result answer) :=
  search_loop fuel (initial state).

(** *** Vocabulary for statements about the loop *)

Definition entry_state (e : entry) : State := e.1.1.2.

(** [run start tr σ]: the loop started on [start] reaches its head with
    locals [σ] after expanding the states [tr], oldest first.  A turn
    expands the state it pops unless that state is already visited. *)
Inductive run (start : State) : list State → locals → Prop :=
| run_initial : run start [] (initial start)
| run_turn tr σ e q σ' :
    run start tr σ →
    heappop (states_to_expand σ) = Ok (e, q) →
    iteration σ = Ok (Continue σ') →
    run start
        (tr ++ if decide (entry_state e ∈ visited_states σ) then []
               else [entry_state e])
        σ'.

(** [replays s acts f]: taking the actions [acts] one after the other, each
    among the successors of the state reached so far, leads from [s] to
    [f]. *)
Inductive replays : State → list (option Action) → State → Prop :=
| replays_nil s : replays s [] s
| replays_cons s a c acts f l act_cost heur_cost :
    successor s = Ok l → Tuple4 a c act_cost heur_cost ∈ l →
    replays c acts f → replays s (Some a :: acts) f.

End engine.
End Astar.

(** *** class FourDominoes *)
Module FourDominoes.

(** [goal_state] is an attribute that only the random constructor sets. *)
Record t : Type := mk
  { N : Z; state : grid; goal_state : option grid }.

(** [FourDominoes(N, state, goal_state)]: with a state given the third
    argument is not stored; [fresh] is the pair the random constructor
    draws on the [state is None] branch. *)
Definition init (N : Z) (state : option grid) (goal_state : option grid)
  (fresh : grid * grid) : result t :=
  _ ← assert ((2 <=? N)%Z && (N <=? 4)%Z);
  match state with
  | Some st =>
      _ ← assert (Z.of_nat (length st) =? N)%Z;
      _ ← for_each st tt (λ row _, assert (Z.of_nat (length row) =? N)%Z);
      Ok (mk N st None)
  | None => Ok (mk N (fst fresh) (Some (snd fresh)))
  end.

(** [__get_random_state()]; it reads [self.N] only.  [shuffle] is the
    rearrangement that [random.shuffle(temp)] makes; [temp_goal_state] is
    the copy taken before it. *)
Definition get_random_state (randint : nat → Z)
  (shuffle : list Domino → list Domino) (n : Z) : result (grid * grid) :=
  '(temp, _) ← draw_tiles randint n;
  let temp_goal_state := temp in
  let temp := shuffle temp in
  Ok (rows_of n temp, rows_of n temp_goal_state).

(** [FourDominoes(N)]: the constructor on its [state is None] branch. *)
Definition init_random (randint : nat → Z)
  (shuffle : list Domino → list Domino) (N : Z) : result t :=
  _ ← assert ((2 <=? N)%Z && (N <=? 4)%Z);
  '(st, goal) ← get_random_state randint shuffle N;
  Ok (mk N st (Some goal)).

(** [self.goal_state] *)
Definition get_goal_state (self : t) : result grid :=
  match goal_state self with
  | Some g => Ok g
  | None => Raise AttributeError
  end.

(** [Astar.heuristicfunction] as [FourDominoes] inherits it: the number
    of positions whose tile is not the one of [self.goal_state].  (The
    local [goal_state] that line 162 binds is not used.) *)
Definition heuristicfunction (self : t) (st : grid) : result Z :=
  let n := N self in
  for_each (range 0 n) 0%Z (λ i tilecount,
    for_each (range 0 n) tilecount (λ j tilecount,
      x ← getitem2 st i j;
      g ← get_goal_state self;
      y ← getitem2 g i j;
      Ok (if decide (x ≠ y) then (tilecount + 1)%Z else tilecount))).

Definition valid_coord (self : t) (x : Z) : bool :=
  (0 <=? x)%Z && (x <? N self)%Z.

Definition move (self : t) (a : action) : result t :=
  let '((r1, c1), (r2, c2)) := a in
  _ ← assert (valid_coord self r1 && valid_coord self c1
              && valid_coord self r2 && valid_coord self c2);
  let temp := map (λ row : list Domino, row) (state self) in
  v2 ← getitem2 temp r2 c2;
  v1 ← getitem2 temp r1 c1;
  temp ← setitem2 temp r1 c1 v2;
  temp ← setitem2 temp r2 c2 v1;
  Ok (mk (N self) temp (goal_state self)).

Definition successor (self : t) (st : grid)
  : result (list (item grid action)) :=
  let n := N self in
  for_each (range 0 (n * n)) [] (λ i successors,
    let r1 := (i / n)%Z in
    let c1 := (i mod n)%Z in
    for_each (range (i + 1) (n * n)) successors (λ j successors,
      let r2 := (j / n)%Z in
      let c2 := (j mod n)%Z in
      let a := ((r1, c1), (r2, c2)) in
      copy ← init n (Some st) None ([], []);
      copy ← move copy a;
      h ← heuristicfunction copy (state copy);
      let cost := (h + 1)%Z in
      Ok (successors ++ [Tuple2 a (state copy)]))).

Definition goal_test (self : t) (st : grid) : result bool :=
  let n := N self in
  r ← for_return (range 0 n) (λ i,
        for_return (range 0 n) (λ j,
          up ← (if (0 <? i)%Z then
                  x ← getitem2 st i j; y ← getitem2 st (i - 1) j;
                  Ok (negb (is_under x y))
                else Ok false);
          if up : bool then Ok (Some false)
          else
            lf ← (if (0 <? j)%Z then
                    x ← getitem2 st i j; y ← getitem2 st i (j - 1);
                    Ok (negb (is_on_the_right_of x y))
                  else Ok false);
            if lf : bool then Ok (Some false) else Ok None));
  Ok (default true r).

(** [<] on the coordinates of an action: tuples of tuples of ints. *)
Definition coord_lt (a b : Z * Z) : bool :=
  if decide (a.1 ≠ b.1) then (a.1 <? b.1)%Z else (a.2 <? b.2)%Z.

Definition action_lt (a b : action) : result bool :=
  Ok (if decide (a.1 ≠ b.1) then coord_lt a.1 b.1 else coord_lt a.2 b.2).

(** [<] on states: tuples of tuples of tiles. *)
Definition state_lt : grid → grid → result bool :=
  tuple_lt (tuple_lt Domino_lt).

(** The instance as [Astar.search] sees it. *)
Definition problem (self : t) : Problem grid action :=
  Build_Problem grid action (successor self) (goal_test self)
                (heuristicfunction self) state_lt action_lt.

End FourDominoes.

End Informed.

(** ** Concrete instances *)
Module Examples.

(** Four tiles that fit together in one arrangement only;
    [mkDomino ident top right bottom left]. *)
Definition tile_a : Domino := mkDomino 0 5 2 1 6.
Definition tile_b : Domino := mkDomino 1 7 8 3 2.
Definition tile_c : Domino := mkDomino 2 1 4 9 5.
Definition tile_d : Domino := mkDomino 3 3 6 7 4.

(** The goal configuration. *)
Definition solved : grid := [[tile_a; tile_b]; [tile_c; tile_d]].

(** One swap away from [solved]: the tiles of the top row exchanged. *)
Definition one_swap : grid := [[tile_b; tile_a]; [tile_c; tile_d]].

(** Two swaps away from [solved]: the tiles of each row exchanged. *)
Definition two_swaps : grid := [[tile_b; tile_a]; [tile_d; tile_c]].

(** Exchanging the tiles of the top row, and those of the bottom row. *)
Definition swap_top : action := ((0, 0), (0, 1))%Z.
Definition swap_bottom : action := ((1, 0), (1, 1))%Z.

(** The 2x2 puzzle of [m3project_UninformedSearch.py]. *)
Definition dfs_puzzle : Uninformed.Problem grid action :=
  Uninformed.FourDominoes.problem (Uninformed.FourDominoes.mk 2 two_swaps).

(** The 2x2 puzzle of [m3project-InformedSearch.py], as the random
    constructor leaves it: both [state] and [goal_state] set. *)
Definition astar_puzzle : Informed.Problem grid action :=
  Informed.FourDominoes.problem
    (Informed.FourDominoes.mk 2 one_swap (Some solved)).

(** A subclass of [Astar] over the integers whose [successor] answers
    with the four-element tuples that [Astar.search] unpacks: from [n] the
    only move is action [1] to [n + 1]; the heuristic is the distance to
    [goal]. *)
Definition counter (goal : nat) : Informed.Problem nat nat :=
  {| Informed.successor := λ n, Ok [Informed.Tuple4 1 (n + 1) 1%Z 0%Z];
     Informed.goal_test := λ n, Ok (n =? goal);
     Informed.heuristicfunction := λ n, Ok (Z.abs (Z.of_nat goal - Z.of_nat n));
     Informed.state_lt := λ x y, Ok (x <? y);
     Informed.action_lt := λ x y, Ok (x <? y) |}.

(** A problem for the depth-first engines in which no state has a
    successor; the goal is [1]. *)
Definition stuck : Uninformed.Problem nat nat :=
  {| Uninformed.successor := λ _, Ok [];
     Uninformed.goal_test := λ n, Ok (n =? 1) |}.

(** A subclass of [Astar] whose [successor] answers with pairs, as the
    abstract method documents, and another in which no state has a
    successor; the goal is [1]. *)
Definition counter_pairs : Informed.Problem nat nat :=
  {| Informed.successor := λ n, Ok [Informed.Tuple2 1 (n + 1)];
     Informed.goal_test := λ n, Ok (n =? 1);
     Informed.heuristicfunction := λ _, Ok 0%Z;
     Informed.state_lt := λ x y, Ok (x <? y);
     Informed.action_lt := λ x y, Ok (x <? y) |}.

Definition astar_stuck : Informed.Problem nat nat :=
  {| Informed.successor := λ _, Ok [];
     Informed.goal_test := λ n, Ok (n =? 1);
     Informed.heuristicfunction := λ _, Ok 0%Z;
     Informed.state_lt := λ x y, Ok (x <? y);
     Informed.action_lt := λ x y, Ok (x <? y) |}.

(** A subclass of [Astar] over the integers with two moves and no
    guidance: action [0] steps back (and stays at [0]), action [1] steps
    forward; the heuristic is 0 everywhere.  States come back into the
    queue after they were expanded. *)
Definition shuttle (goal : nat) : Informed.Problem nat nat :=
  {| Informed.successor := λ n,
       Ok [Informed.Tuple4 0 (n - 1) 1%Z 0%Z; Informed.Tuple4 1 (n + 1) 1%Z 0%Z];
     Informed.goal_test := λ n, Ok (n =? goal);
     Informed.heuristicfunction := λ _, Ok 0%Z;
     Informed.state_lt := λ x y, Ok (x <? y);
     Informed.action_lt := λ x y, Ok (x <? y) |}.

(** The locals of [Astar.search] at the head of the loop after [k] turns
    that went on. *)
Definition astar_after {P : Informed.Problem nat nat} (k : nat) (start : nat)
  : @Informed.Astar.locals nat nat _ _ :=
  Nat.iter k (λ σ, match Informed.Astar.iteration σ with
                   | Ok (Informed.Astar.Continue σ') => σ'
                   | _ => σ
                   end)
           (Informed.Astar.initial start).

(** A problem for the depth-first engines with one fork: from [0] action
    [1] leads to [1] and action [2] to [2]; no other state has a
    successor; the goal is [1]. *)
Definition fork : Uninformed.Problem nat nat :=
  {| Uninformed.successor := λ n, Ok (if n =? 0 then [(1, 1); (2, 2)] else []);
     Uninformed.goal_test := λ n, Ok (n =? 1) |}.

(** A problem whose [successor] fails below the root: from [0] action [1]
    leads to [1], and asking for the successors of any other state raises
    [KeyError]; no state is a goal. *)
Definition trap : Uninformed.Problem nat nat :=
  {| Uninformed.successor := λ n, if n =? 0 then Ok [(1, 1)] else Raise KeyError;
     Uninformed.goal_test := λ _, Ok false |}.

(** The locals of [DepthLimitedDFS.search] at the head of the loop after
    [k] turns that went on. *)
Definition dfs_after {P : Uninformed.Problem nat nat} (limit : Z) (k : nat)
  (start : nat) : @Uninformed.DepthLimitedDFS.locals nat nat _ _ :=
  Nat.iter k (λ σ, match Uninformed.DepthLimitedDFS.iteration limit σ with
                   | Ok (Uninformed.DepthLimitedDFS.Continue σ') => σ'
                   | _ => σ
                   end)
           (Uninformed.DepthLimitedDFS.initial start).

(** A sequence that [random.randint(1, 9)] can hand out: the digits from
    1 to 9 in turn. *)
Definition digits (k : nat) : Z := (1 + Z.of_nat k mod 9)%Z.

End Examples.

(** * Properties *)

(** ** Python fragment *)
Module PyFacts.

Lemma pop_snoc {A} (l : list A) (x : A) : pop (l ++ [x]) = Ok (x, l).
Proof. unfold pop. by rewrite reverse_snoc, reverse_involutive. Qed.

Lemma pop_Ok {A} (l r : list A) (x : A) : pop l = Ok (x, r) → l = r ++ [x].
Proof.
  unfold pop. destruct (reverse l) as [|y t] eqn:E; [done|].
  intros [= -> <-]. by rewrite <- (reverse_involutive l), E, reverse_cons.
Qed.

Lemma pop_nonempty {A} (l : list A) :
  l ≠ [] → ∃ x r, pop l = Ok (x, r).
Proof.
  destruct l as [|y l _] using rev_ind; [done|].
  intros _. exists y, l. apply pop_snoc.
Qed.

Lemma Ok_bind {A B} (a : A) (f : A → result B) : Ok a ≫= f = f a.
Proof. done. Qed.

Lemma snoc_eq_singleton {A} (l : list A) (x y : A) :
  l ++ [x] = [y] → l = [] ∧ x = y.
Proof. intros [[-> [= ->]]|[_ [=]]]%app_singleton; done. Qed.

Lemma snoc_ne_nil {A} (l : list A) (x : A) : l ++ [x] ≠ [].
Proof. by destruct l. Qed.

Lemma elem_of_range (lo hi x : Z) : x ∈ range lo hi ↔ (lo ≤ x < hi)%Z.
Proof.
  unfold range. rewrite list_elem_of_fmap. split.
  - intros (k & -> & Hk%elem_of_seq). lia.
  - intros Hx. exists (Z.to_nat (x - lo)). split; [lia|].
    apply elem_of_seq. lia.
Qed.

Lemma range_cons (lo hi : Z) :
  (lo < hi)%Z → range lo hi = lo :: range (lo + 1) hi.
Proof.
  intros Hlt. unfold range.
  replace (Z.to_nat (hi - lo)) with (S (Z.to_nat (hi - (lo + 1)))) by lia.
  simpl. f_equal; [lia|]. rewrite <- fmap_S_seq, <- list_fmap_compose.
  apply list_fmap_ext. intros _ k _. simpl. lia.
Qed.

Lemma for_each_raise {A S} (x : A) (l : list A) (s : S)
    (body : A → S → result S) (e : exn) :
  body x s = Raise e → for_each (x :: l) s body = Raise e.
Proof. simpl. by intros ->. Qed.

(** A loop that appends to its accumulator builds a list bind. *)
Lemma for_each_bind {A B} (l : list A) (g : A → list B)
    (body : A → list B → result (list B)) (acc : list B) :
  (∀ x acc, x ∈ l → body x acc = Ok (acc ++ g x)) →
  for_each l acc body = Ok (acc ++ (l ≫= g)).
Proof.
  revert acc. induction l as [|x l IH]; intros acc Hbody; simpl.
  - by rewrite app_nil_r.
  - rewrite Hbody by left. simpl.
    rewrite IH by (intros; apply Hbody; by right). by rewrite app_assoc.
Qed.

Lemma fmap_bind {A B C} (f : B → C) (g : A → list B) (l : list A) :
  f <$> (l ≫= g) = l ≫= (λ x, f <$> g x).
Proof.
  induction l as [|x l IH]; [done|]. rewrite !bind_cons, fmap_app. by f_equal.
Qed.

End PyFacts.
Import PyFacts.

(** ** Depth-limited DFS and iterative deepening *)
Module DFSFacts.
Import Uninformed Uninformed.DepthLimitedDFS.

Section engine.
Context {State Action : Type} `{Countable State}.
Context {P : Problem State Action}.
Implicit Types (σ : @locals State Action _ _) (e : @entry State Action).
Implicit Types (pth : list State) (vis : gset State).
Implicit Types (sol : list (option Action)).

(** The cleaning loop stops with [solution] no longer than [depth]. *)
Lemma clean_loop_length turns depth sol pth vis sol' (pth' : list State) (vis' : gset State) :
  length sol ≤ turns →
  clean_loop (Action:=Action) turns depth sol pth vis = Ok (sol', pth', vis') →
  length sol' ≤ depth.
Proof.
  revert sol pth vis. induction turns as [|turns IH]; intros sol pth vis Hl; simpl.
  - case_decide; [lia|]. intros [= <- <- <-]. lia.
  - case_decide; [|intros [= <- <- <-]; lia].
    destruct (pop sol) as [[x sol1]|] eqn:Hp1; simpl; [|done].
    destruct (pop pth) as [[s pth1]|] eqn:Hp2; simpl; [|done].
    destruct (remove s vis) as [vis1|] eqn:Hr; simpl; [|done].
    intros Hk. apply pop_Ok in Hp1 as ->.
    rewrite length_app in Hl. simpl in Hl.
    eapply IH; [|done]. lia.
Qed.

(** On a path without repetition whose states are the visited ones, the
    cleaning loop cuts the three down to the first [depth] entries. *)
Lemma clean_loop_take turns depth sol pth :
  length sol = length pth → NoDup pth → length sol ≤ turns →
  clean_loop (Action:=Action) turns depth sol pth (list_to_set pth)
  = Ok (take depth sol, take depth pth, list_to_set (take depth pth)).
Proof.
  revert sol pth. induction turns as [|turns IH]; intros sol pth Hl Hnd Ht; simpl.
  - case_decide; [lia|]. by rewrite !take_ge by lia.
  - case_decide as Hd; [|by rewrite !take_ge by lia].
    destruct sol as [|x sol _] using rev_ind; [simpl in Hd; lia|].
    destruct pth as [|s pth _] using rev_ind;
      [rewrite length_app in Hl; simpl in Hl; lia|].
    rewrite !length_app in *. simpl in *.
    rewrite !pop_snoc. simpl.
    apply NoDup_app in Hnd as (Hnd & Hs & _).
    unfold remove. rewrite decide_True by set_solver. simpl.
    replace (list_to_set (pth ++ [s]) ∖ {[s]}) with (list_to_set pth : gset State).
    2:{ rewrite list_to_set_snoc_L.
        assert (s ∉ (list_to_set pth : gset State)) as Hfresh.
        { rewrite elem_of_list_to_set. intros Hin. apply (Hs s Hin). by left. }
        apply set_eq. intros y.
        rewrite elem_of_difference, elem_of_union, elem_of_singleton.
        split; [|by intros [[?|?] ?]].
        intros Hy. split; [by left|by intros ->]. }
    rewrite IH by (done || lia).
    by rewrite !take_app_le by lia.
Qed.

(** *** The invariant of the loop *)

(** A stack entry other than the root: its depth is positive and the path
    holds, one level up, a state that has it among its successors. *)
Definition child_of pth e : Prop :=
  ∃ d p l a, e.1.2 = S d ∧ pth !! d = Some p
             ∧ successor p = Ok l ∧ (a, e.1.1) ∈ l.

(** Before the root is taken: nothing on the path, and the stack holds the
    root or (once the root was ignored) nothing. *)
Definition starting (start : State) σ : Prop :=
  path σ = []
  ∧ (states_to_expand σ = [(start, 0, None)] ∨ states_to_expand σ = []).

(** After the root is taken: the path starts at the root, every stack
    entry is a child of the path, and depths grow towards the top. *)
Definition running (start : State) σ : Prop :=
  path_from start (path σ)
  ∧ Forall (child_of (path σ)) (states_to_expand σ)
  ∧ StronglySorted (λ e1 e2, e1.1.2 ≤ e2.1.2) (states_to_expand σ).

Definition inv (start : State) σ : Prop :=
  length (solution σ) = length (path σ)
  ∧ visited_states σ = list_to_set (path σ)
  ∧ NoDup (path σ)
  ∧ (starting start σ ∨ running start σ).

Lemma inv_initial start : inv start (initial start).
Proof. unfold inv, starting. simpl. repeat split; auto using NoDup_nil_2. Qed.

(** The depth of the entry on top never exceeds the length of the path. *)
Lemma inv_top_depth start σ stk e :
  inv start σ → states_to_expand σ = stk ++ [e] →
  e.1.2 ≤ length (path σ).
Proof.
  intros (_ & _ & _ & [[Hp [Hs|Hs]]|(_ & Hc & _)]) Hstk; rewrite Hstk in *.
  - apply snoc_eq_singleton in Hs as [_ ->]. simpl. lia.
  - by apply snoc_ne_nil in Hs.
  - rewrite Forall_app, Forall_singleton in Hc. destruct Hc as [_ Hc].
    destruct Hc as (d & p & l & a & Heq & Hd & _).
    apply lookup_lt_Some in Hd. lia.
Qed.

Lemma linked_take pth d : linked pth → linked (take d pth).
Proof.
  intros Hl i p c [Hi Hd]%lookup_take_Some [Hc _]%lookup_take_Some. eauto.
Qed.

Lemma linked_snoc pth p c l a :
  linked pth → last pth = Some p → successor p = Ok l → (a, c) ∈ l →
  linked (pth ++ [c]).
Proof.
  intros Hl Hlast Hs Hin i x y Hx Hy.
  apply lookup_snoc_Some in Hy as [[Hi Hy]|[Hi ->]].
  - rewrite lookup_app_l in Hx by lia. eauto.
  - rewrite lookup_app_l in Hx by lia.
    rewrite last_lookup in Hlast. rewrite <- Hi in Hlast. simpl in Hlast.
    simplify_eq. eauto.
Qed.

(** What [accept] does to locals that satisfy the invariant. *)
Lemma accept_spec start σ stk e :
  inv start σ → states_to_expand σ = stk ++ [e] →
  e.1.1 ∉ visited_states σ →
  ∃ σ', accept e (set_stack stk σ) = Ok σ'
    ∧ path σ' = take e.1.2 (path σ) ++ [e.1.1]
    ∧ solution σ' = take e.1.2 (solution σ) ++ [e.2]
    ∧ visited_states σ' = list_to_set (path σ')
    ∧ NoDup (path σ')
    ∧ length (path σ') = S e.1.2
    ∧ length (solution σ') = length (path σ')
    ∧ path_from start (path σ')
    ∧ states_to_expand σ' = stk
    ∧ num_expanded_states σ' = num_expanded_states σ + 1.
Proof.
  intros Hinv Hstk Hfresh.
  pose proof (inv_top_depth _ _ _ _ Hinv Hstk) as Hd.
  destruct Hinv as (Hlen & Hvis & Hnd & Hphase).
  destruct e as [[s d] a]. simpl in *.
  unfold accept, clean. simpl. rewrite Hvis.
  rewrite clean_loop_take by (done || lia). simpl.
  eexists. split; [done|]. simpl.
  assert (s ∉ take d (path σ)) as Hs.
  { intros Hin%elem_of_take. apply Hfresh. rewrite Hvis.
    apply elem_of_list_to_set. destruct Hin as (i & ? & ?).
    by eapply list_elem_of_lookup_2. }
  repeat split; try done.
  - by rewrite list_to_set_snoc_L.
  - apply NoDup_app. repeat split.
    + eapply sublist_NoDup; [done|apply sublist_take].
    + intros x Hx ->%list_elem_of_singleton. done.
    + apply NoDup_singleton.
  - rewrite length_app, length_take. simpl. lia.
  - rewrite !length_app, !length_take. simpl. lia.
  - destruct Hphase as [[Hp Hs']|((Hh & _) & Hc & _)].
    + rewrite Hp, Hstk in *.
      destruct Hs' as [[_ [= -> -> _]]%snoc_eq_singleton|Hs'%snoc_ne_nil]; done.
    + rewrite Hstk, Forall_app, Forall_singleton in Hc. destruct Hc as [_ Hc].
      destruct Hc as (d' & p & l & a' & Heq & Hd' & _). simpl in Heq. subst d.
      destruct (path σ) as [|x pth]; [done|]. simpl in *. done.
  - destruct Hphase as [[Hp Hs']|((_ & Hl) & Hc & _)].
    + rewrite Hp, take_nil. simpl. by intros [|i] ?? [= <-] [=].
    + rewrite Hstk, Forall_app, Forall_singleton in Hc. destruct Hc as [_ Hc].
      destruct Hc as (d' & p & l & a' & Heq & Hd' & Hsucc & Hin).
      simpl in *. subst d.
      eapply linked_snoc; [by apply linked_take| |done..].
      rewrite last_lookup, length_take.
      replace (Init.Nat.pred (S d' `min` length (path σ))) with d' by lia.
      apply lookup_take_Some. split; [done|lia].
Qed.

Lemma sorted_same_depth (k : nat) (l : list (@entry State Action)) :
  Forall (λ e, e.1.2 = k) l →
  StronglySorted (λ e1 e2 : entry, e1.1.2 ≤ e2.1.2) l.
Proof.
  induction 1 as [|e l He Hl IH]; constructor; [done|].
  eapply Forall_impl; [exact Hl|]. simpl. intros; lia.
Qed.

Lemma inv_ignore start σ stk e :
  inv start σ → states_to_expand σ = stk ++ [e] → inv start (set_stack stk σ).
Proof.
  intros (Hlen & Hvis & Hnd & Hphase) Hstk. repeat split; try done.
  destruct Hphase as [[Hp Hs]|(Hpf & Hc & Hsort)]; [left|right].
  - split; [done|]. right. simpl. rewrite Hstk in Hs.
    destruct Hs as [[-> _]%snoc_eq_singleton|Hs%snoc_ne_nil]; done.
  - rewrite Hstk in Hc, Hsort. apply Forall_app in Hc as [Hc _].
    apply StronglySorted_app_1_l in Hsort. split; [done|split; done].
Qed.

(** A turn of the loop that goes on to the next one keeps the invariant. *)
Lemma inv_turn limit start σ σ' :
  inv start σ → iteration limit σ = Ok (Continue σ') → inv start σ'.
Proof.
  intros Hinv. unfold iteration.
  destruct (pop (states_to_expand σ)) as [[e stk]|] eqn:Hpop; simpl; [|done].
  apply pop_Ok in Hpop.
  destruct (ignored limit e (set_stack stk σ)) eqn:Hig.
  { intros [= <-]. by eapply inv_ignore. }
  apply orb_false_elim in Hig as [Hfresh%bool_decide_eq_false _].
  simpl in Hfresh.
  destruct (accept_spec _ _ _ _ Hinv Hpop Hfresh)
    as (σ1 & -> & Hpath & Hsol & Hvis & Hnd & Hlen & Hlen' & Hpf & Hstk & Hn).
  simpl. destruct (goal_test e.1.1) as [[]|]; simpl; [done| |done].
  destruct (successor e.1.1) as [children|] eqn:Hsucc; simpl; [|done].
  intros [= <-]. repeat split; try done. right.
  pose proof (inv_top_depth _ _ _ _ Hinv Hpop) as Hd.
  assert (path σ1 !! e.1.2 = Some e.1.1) as Htop.
  { rewrite Hpath, lookup_app_r; rewrite length_take; [|lia].
    by replace (e.1.2 - e.1.2 `min` length (path σ)) with 0 by lia. }
  assert (Forall (λ e' : entry, e'.1.2 = e.1.2 + 1)
            (map (λ '(action, child), (child, e.1.2 + 1, Some action)) children))
    as Hnew.
  { apply Forall_forall. intros e' ([a c] & -> & _)%list_elem_of_fmap. done. }
  destruct Hinv as (_ & _ & _ & Hphase). unfold running. simpl. rewrite Hstk.
  assert (Forall (child_of (path σ1)) stk
          ∧ StronglySorted (λ e1 e2 : entry, e1.1.2 ≤ e2.1.2) stk
          ∧ Forall (λ e' : entry, e'.1.2 ≤ e.1.2) stk) as (Hc1 & Hs1 & Hle).
  { destruct Hphase as [[Hp Hs]|(_ & Hc & Hsort)]; rewrite Hpop in *.
    - assert (stk = []) as ->; [|by repeat constructor].
      destruct Hs as [[-> _]%snoc_eq_singleton|Hs%snoc_ne_nil]; done.
    - apply StronglySorted_app in Hsort as (Hcross & Hs1 & _).
      apply Forall_app in Hc as [Hc _].
      assert (Forall (λ e' : entry, e'.1.2 ≤ e.1.2) stk) as Hle.
      { apply Forall_forall. intros e' He'. apply Hcross; [done|]. by left. }
      repeat split; [|done..].
      apply Forall_forall. intros e' He'.
      rewrite Forall_forall in Hc, Hle.
      destruct (Hc _ He') as (d & p & l & a & Heq & Hlk & Hsu & Hin).
      specialize (Hle _ He'). exists d, p, l, a. repeat split; [done| |done..].
      rewrite Hpath, lookup_app_l by (rewrite length_take; lia).
      apply lookup_take_Some. split; [done|lia]. }
  split; [done|split].
  - apply Forall_app. split; [done|].
    apply Forall_forall. intros e' ([a c] & -> & Hin)%list_elem_of_fmap.
    exists e.1.2, e.1.1, children, a. simpl. repeat split; [lia|done..].
  - apply StronglySorted_app_2; [|done|by eapply sorted_same_depth].
    intros x y Hx Hy. rewrite Forall_forall in Hle, Hnew.
    specialize (Hle _ Hx). specialize (Hnew _ Hy). simpl in *. lia.
Qed.

Lemma reachable_inv limit start σ : reachable limit start σ → inv start σ.
Proof. induction 1; eauto using inv_initial, inv_turn. Qed.

(** *** Termination *)

Definition weight (limit : Z) (stk : list (@entry State Action)) : nat :=
  sum_list_with (λ e : entry, tree_size (levels limit e.1.2) e.1.1) stk.

Lemma tree_size_pos k (s : State) : 0 < tree_size k s.
Proof. destruct k; simpl; [lia|]. destruct (successor s); lia. Qed.

Lemma weight_snoc limit stk e :
  weight limit (stk ++ [e])
  = weight limit stk + tree_size (levels limit e.1.2) e.1.1.
Proof. unfold weight. rewrite sum_list_with_app. simpl. lia. Qed.

Lemma weight_children limit (s : State) (d : nat) children :
  weight limit (map (λ '(action, child), (child, d + 1, Some action)) children)
  = sum_list_with (λ ac : Action * State,
                     tree_size (levels limit (d + 1)) ac.2) children.
Proof.
  unfold weight. induction children as [|[a c] l IH]; simpl; [done|].
  by rewrite IH.
Qed.

(** Every turn that goes on makes the stack lighter. *)
Lemma weight_turn limit σ σ' :
  iteration limit σ = Ok (Continue σ') →
  weight limit (states_to_expand σ') < weight limit (states_to_expand σ).
Proof.
  unfold iteration.
  destruct (pop (states_to_expand σ)) as [[e stk]|] eqn:Hpop; simpl; [|done].
  apply pop_Ok in Hpop. rewrite Hpop, weight_snoc.
  destruct (ignored limit e (set_stack stk σ)) eqn:Hig.
  { intros [= <-]. simpl. pose proof (tree_size_pos (levels limit e.1.2) e.1.1). lia. }
  apply orb_false_elim in Hig as [_ Hd%Z.ltb_ge].
  destruct (accept e (set_stack stk σ)) as [σ1|] eqn:Hacc; simpl; [|done].
  destruct (goal_test e.1.1) as [[]|]; simpl; [done| |done].
  destruct (successor e.1.1) as [children|] eqn:Hsucc; simpl; [|done].
  intros [= <-]. simpl.
  assert (states_to_expand σ1 = stk) as ->.
  { unfold accept in Hacc.
    destruct (clean e.1.2 (set_stack stk σ)) as [σ0|] eqn:Hcl; simplify_eq/=.
    unfold clean in Hcl. simpl in Hcl.
    destruct (clean_loop _ _ _ _ _) as [[[??]?]|]; simplify_eq/=.
    by destruct e as [[??]?]. }
  unfold weight at 1. rewrite sum_list_with_app. fold (weight limit stk).
  fold (weight limit (map (λ '(action, child), (child, e.1.2 + 1, Some action)) children)).
  rewrite (weight_children limit e.1.1).
  replace (levels limit e.1.2) with (S (levels limit (e.1.2 + 1)))
    by (unfold levels; lia).
  simpl. rewrite Hsucc. lia.
Qed.

Lemma search_loop_terminates limit fuel σ :
  weight limit (states_to_expand σ) < fuel →
  is_Some (search_loop fuel limit σ).
Proof.
  revert σ. induction fuel as [|fuel IH]; intros σ Hw; [lia|]. simpl.
  destruct (states_to_expand σ) as [|e0 stk0] eqn:Hstk; [done|].
  destruct (iteration limit σ) as [[σ'|r]|] eqn:Hit; [|done..].
  apply IH. apply weight_turn in Hit. rewrite Hstk in Hit. lia.
Qed.

(** [DepthLimitedDFS.search] always comes back, with an answer or an
    exception: the fuel it is given is never used up. *)
Lemma search_terminates (state : State) (limit : Z) :
  is_Some (search state limit).
Proof.
  apply search_loop_terminates. unfold search_fuel, weight. simpl. lia.
Qed.

(** *** The depth bound *)

Lemma iteration_return_length limit σ sol n :
  iteration limit σ = Ok (Return (Some sol, n)) →
  (Z.of_nat (length sol) ≤ limit)%Z.
Proof.
  unfold iteration.
  destruct (pop (states_to_expand σ)) as [[e stk]|] eqn:Hpop; simpl; [|done].
  destruct (ignored limit e (set_stack stk σ)) eqn:Hig; [done|].
  apply orb_false_elim in Hig as [_ Hd%Z.ltb_ge].
  unfold accept, clean. simpl.
  destruct (clean_loop _ _ _ _ _) as [[[sol1 pth1] vis1]|] eqn:Hcl; simpl; [|done].
  apply clean_loop_length in Hcl; [|done].
  destruct (goal_test e.1.1) as [[]|]; simpl; [| |done].
  - intros [= <- <-]. destruct e as [[s d] a]. simpl in *.
    destruct sol1 as [|x sol1]; simpl in *; [lia|].
    rewrite length_app. simpl. lia.
  - by destruct (successor e.1.1).
Qed.

Lemma search_loop_depth_bound limit fuel σ sol n :
  search_loop fuel limit σ = Some (Ok (Some sol, n)) →
  (Z.of_nat (length sol) ≤ limit)%Z.
Proof.
  revert σ. induction fuel as [|fuel IH]; intros σ; simpl; [done|].
  destruct (states_to_expand σ) as [|e0 stk0]; [done|].
  destruct (iteration limit σ) as [[σ'|r]|] eqn:Hit; [by apply IH| |done].
  intros [= ->]. by eapply iteration_return_length.
Qed.

Lemma iteration_too_deep limit σ e stk :
  pop (states_to_expand σ) = Ok (e, stk) →
  (limit < Z.of_nat e.1.2)%Z →
  iteration limit σ = Ok (Continue (set_stack stk σ)).
Proof.
  intros Hpop Hd. unfold iteration, ignored. rewrite Hpop. simpl.
  apply Z.ltb_lt in Hd. rewrite Hd. by rewrite orb_true_r.
Qed.

(** *** The claims on the depth-limited engine *)

(** C5. Depth bound.  For every start state and every limit the search
    comes back; an action sequence it returns has at most [limit] actions;
    and a popped entry deeper than the limit is dropped by a turn that only
    takes it off the stack: no child is pushed, nothing else changes. *)
Theorem depth_bound (state : State) (limit : Z) :
  is_Some (search state limit)
  ∧ (∀ sol n, search state limit = Some (Ok (Some sol, n)) →
              (Z.of_nat (length sol) ≤ limit)%Z)
  ∧ (∀ σ e stk, pop (states_to_expand σ) = Ok (e, stk) →
                (limit < Z.of_nat e.1.2)%Z →
                iteration limit σ = Ok (Continue (set_stack stk σ))).
Proof.
  split; [apply search_terminates|]. split.
  - intros sol n. apply search_loop_depth_bound.
  - intros σ e stk. apply iteration_too_deep.
Qed.

(** C6. Path-local visited set.  Take any turn of the loop, at any point
    the search reaches, in which the popped entry (state [s], depth [d])
    is not skipped by line 57.  Lines 60-67 of that turn raise nothing and
    leave: the path cut back to its first [d] states followed by [s]; a
    visited set holding exactly the states of that path; a path free of
    repetitions, with [d + 1] states, that starts at the root and steps
    from each state to one of its successors.  Every state that was on the
    path at depth [d] or deeper, the abandoned branch, is unmarked.  The
    turn then goes on from these locals: it is the goal test and the
    expansion of [s] on them. *)
Theorem visited_is_current_path (limit : Z) (start : State) σ e stk :
  reachable limit start σ →
  pop (states_to_expand σ) = Ok (e, stk) →
  ignored limit e (set_stack stk σ) = false →
  ∃ σ', accept e (set_stack stk σ) = Ok σ'
    ∧ path σ' = take e.1.2 (path σ) ++ [e.1.1]
    ∧ visited_states σ' = list_to_set (path σ')
    ∧ NoDup (path σ')
    ∧ length (path σ') = S e.1.2
    ∧ path_from start (path σ')
    ∧ (∀ s, s ∈ drop e.1.2 (path σ) → s ∉ visited_states σ')
    ∧ iteration limit σ
      = (g ← goal_test e.1.1;
         if g : bool
         then Ok (Return (Some (tail (solution σ')), num_expanded_states σ'))
         else children ← successor e.1.1;
              Ok (Continue (push_children e.1.2 children σ'))).
Proof.
  intros Hinv%reachable_inv Hpop Hig.
  pose proof (pop_Ok _ _ _ Hpop) as Hstk.
  pose proof Hig as [Hfresh%bool_decide_eq_false _]%orb_false_elim.
  destruct (accept_spec _ _ _ _ Hinv Hstk Hfresh)
    as (σ1 & Hacc & Hpath & ? & Hvis & ? & ? & ? & ? & ? & ?).
  exists σ1. repeat (split; [done|]). split.
  - intros s Hs. rewrite Hvis, Hpath, elem_of_list_to_set.
    destruct Hinv as (_ & Hvis0 & Hnd & _).
    rewrite <- (take_drop e.1.2 (path σ)) in Hnd.
    apply NoDup_app in Hnd as (_ & Hdisj & _).
    intros [Hin| ->%list_elem_of_singleton]%elem_of_app.
    + by apply (Hdisj s).
    + apply Hfresh. simpl. rewrite Hvis0. apply elem_of_list_to_set.
      rewrite <- (take_drop e.1.2 (path σ)). apply elem_of_app. by right.
  - unfold iteration. rewrite Hpop, Ok_bind, Hig, Hacc. done.
Qed.

(** C7, as the code has it.  A negative limit raises nothing: the root is
    popped, found deeper than the limit, and dropped; the search returns
    [None] with no state expanded. *)
Theorem negative_limit_returns_none (state : State) (limit : Z) :
  (limit < 0)%Z → search state limit = Some (Ok (None, 0)).
Proof.
  intros Hl. unfold search, search_fuel, levels.
  replace (Z.to_nat (limit - Z.of_nat 0 + 1)) with 0 by lia.
  simpl. unfold iteration, ignored. simpl.
  change (Z.of_nat 0) with 0%Z.
  apply Z.ltb_lt in Hl. rewrite Hl. by rewrite orb_true_r.
Qed.

End engine.

(** *** The engine on the 2x2 puzzle *)
Import Examples.

(** The depth bound at work: limit 2 on [two_swaps]. *)
Lemma depth_bound_witness :
  search (P:=dfs_puzzle) two_swaps 2
  = Some (Ok (Some [Some swap_bottom; Some swap_top], 7))
  ∧ (Z.of_nat (length [Some swap_bottom; Some swap_top]) ≤ 2)%Z.
Proof.
  assert (search (P:=dfs_puzzle) two_swaps 2
          = Some (Ok (Some [Some swap_bottom; Some swap_top], 7))) as Hrun
    by (vm_compute; reflexivity).
  split; [exact Hrun|].
  exact (proj1 (proj2 (depth_bound (P:=dfs_puzzle) two_swaps 2)) _ 7 Hrun).
Defined.

(** A turn that backtracks.  On [fork] from [0] under limit 1 the first
    turn takes the root and pushes both children, the second takes [2] and
    finds it a dead end; the third pops [1] at depth 1 while the path is
    still [0; 2]: it cuts the path back to [0], unmarks [2], takes [1] and
    returns. *)
Lemma visited_is_current_path_witness :
  path (dfs_after (P:=fork) 1 2 0) = [0; 2]
  ∧ ∃ σ', accept (Action:=nat) (1, 1, Some 1)
                 (set_stack [] (dfs_after (P:=fork) 1 2 0)) = Ok σ'
    ∧ path σ' = [0; 1]
    ∧ visited_states σ' = list_to_set [0; 1]
    ∧ (2 ∉ visited_states σ')
    ∧ iteration (P:=fork) 1 (dfs_after (P:=fork) 1 2 0)
      = Ok (Return (Some (tail (solution σ')), num_expanded_states σ')).
Proof.
  split; [reflexivity|].
  assert (reachable (P:=fork) 1 0 (dfs_after (P:=fork) 1 2 0)) as Hreach.
  { apply (reachable_turn (P:=fork) 1 0 (dfs_after (P:=fork) 1 1 0));
      [|vm_compute; reflexivity].
    apply (reachable_turn (P:=fork) 1 0 (initial 0));
      [apply reachable_initial|vm_compute; reflexivity]. }
  destruct (visited_is_current_path (P:=fork) 1 0
              (dfs_after (P:=fork) 1 2 0) (1, 1, Some 1) [] Hreach)
    as (σ' & Hacc & Hpath & Hvis & _ & _ & _ & Hgone & Hturn).
  - vm_compute; reflexivity.
  - vm_compute; reflexivity.
  - exists σ'. split; [exact Hacc|]. split; [exact Hpath|].
    split; [exact (eq_trans Hvis (f_equal list_to_set Hpath))|].
    split; [apply Hgone; left|exact Hturn].
Defined.

(** C7, as the spec has it, fails: no exception comes out of a search
    with limit [-1]. *)
Lemma negative_limit_no_signal :
  ¬ ∃ e, search (P:=dfs_puzzle) two_swaps (-1) = Some (Raise e).
Proof. intros [e He]. vm_compute in He. discriminate He. Qed.

(** Limit [-1] on [two_swaps]. *)
Lemma negative_limit_witness :
  search (P:=dfs_puzzle) two_swaps (-1) = Some (Ok (None, 0)).
Proof. apply negative_limit_returns_none. lia. Defined.

(** C3. The driver tests for stagnation before it looks at the solution.
    On [two_swaps] the call with limit 1 expands 7 states and finds
    nothing; the call with limit 2 finds the two-swap solution, also after
    7 expansions; the driver takes the equal counts for stagnation and
    returns [None], with the 8 expansions of limits 0 and 1. *)
Theorem stagnation_hides_solution :
  search (P:=dfs_puzzle) two_swaps 0 = Some (Ok (None, 1))
  ∧ search (P:=dfs_puzzle) two_swaps 1 = Some (Ok (None, 7))
  ∧ search (P:=dfs_puzzle) two_swaps 2
    = Some (Ok (Some [Some swap_bottom; Some swap_top], 7))
  ∧ IterativeDeepening.search (P:=dfs_puzzle) two_swaps = Some (Ok (None, 8)).
Proof. vm_compute. done. Qed.

End DFSFacts.

(** ** The puzzle of the uninformed program *)
Module PuzzleFacts.
Import Uninformed Uninformed.FourDominoes.

(** *** Indexing *)

Lemma getitem_lookup {A} (l : list A) (i : Z) :
  (0 ≤ i)%Z →
  getitem l i = match l !! Z.to_nat i with
                | Some x => Ok x
                | None => Raise IndexError
                end.
Proof.
  intros Hi. unfold getitem.
  replace (i <? 0)%Z with false by lia. by replace (i <? 0)%Z with false by lia.
Qed.

Lemma setitem_insert {A} (l : list A) (i : Z) (x : A) :
  (0 ≤ i < Z.of_nat (length l))%Z →
  setitem l i x = Ok (<[Z.to_nat i := x]> l).
Proof.
  intros Hi. unfold setitem.
  replace (i <? 0)%Z with false by lia. replace (i <? 0)%Z with false by lia.
  by replace (i <? Z.of_nat (length l))%Z with true by lia.
Qed.

(** The grid with the tile at [p] replaced. *)
Definition set_cell (g : grid) (p : Z * Z) (x : Domino) : grid :=
  match g !! Z.to_nat p.1 with
  | Some row => <[Z.to_nat p.1 := <[Z.to_nat p.2 := x]> row]> g
  | None => g
  end.

Lemma cell_is_Some n g p : square n g → in_grid n p → is_Some (cell g p).
Proof.
  intros [Hlen Hrows] [Hr Hc]. unfold cell.
  destruct (lookup_lt_is_Some_2 g (Z.to_nat p.1)) as [row Hrow]; [lia|].
  rewrite Hrow. simpl. apply lookup_lt_is_Some_2.
  rewrite Forall_forall in Hrows.
  specialize (Hrows row (list_elem_of_lookup_2 _ _ _ Hrow)). lia.
Qed.

Lemma getitem2_cell n g r c x :
  in_grid n (r, c) → cell g (r, c) = Some x → getitem2 g r c = Ok x.
Proof.
  intros [Hr Hc]. unfold cell, getitem2. simpl in *.
  rewrite getitem_lookup by lia.
  destruct (g !! Z.to_nat r) as [row|]; simpl; [|done].
  rewrite getitem_lookup by lia. by intros ->.
Qed.

Lemma setitem2_set_cell n g r c x :
  square n g → in_grid n (r, c) →
  setitem2 g r c x = Ok (set_cell g (r, c) x).
Proof.
  intros [Hlen Hrows] [Hr Hc]. unfold setitem2, set_cell. simpl in *.
  rewrite getitem_lookup by lia.
  destruct (lookup_lt_is_Some_2 g (Z.to_nat r)) as [row Hrow]; [lia|].
  rewrite Hrow. simpl.
  rewrite Forall_forall in Hrows.
  specialize (Hrows row (list_elem_of_lookup_2 _ _ _ Hrow)).
  rewrite setitem_insert by lia. simpl. by rewrite setitem_insert by lia.
Qed.

Lemma square_set_cell n g p x : square n g → square n (set_cell g p x).
Proof.
  intros [Hlen Hrows]. unfold set_cell.
  destruct (g !! Z.to_nat p.1) as [row|] eqn:Hrow; [|done].
  split; [by rewrite length_insert|].
  apply Forall_insert; [done|]. rewrite length_insert.
  rewrite Forall_forall in Hrows.
  apply (Hrows row (list_elem_of_lookup_2 _ _ _ Hrow)).
Qed.

Lemma cell_set_cell n g p x y :
  square n g → in_grid n p → in_grid n y →
  cell (set_cell g p x) y = if decide (y = p) then Some x else cell g y.
Proof.
  intros Hsq Hp Hy. destruct (cell_is_Some n g p Hsq Hp) as [v Hv].
  destruct Hsq as [Hlen Hrows]. destruct Hp as [Hr Hc], Hy as [Hr' Hc'].
  unfold cell, set_cell in *.
  destruct (g !! Z.to_nat p.1) as [row|] eqn:Hrow; [|done]. simpl in Hv.
  apply lookup_lt_Some in Hrow as Hlt. apply lookup_lt_Some in Hv as Hlt'.
  destruct p as [r c], y as [r' c']. simpl in *.
  destruct (decide (r' = r)) as [->|Hne].
  - rewrite list_lookup_insert_eq by done. simpl.
    destruct (decide (c' = c)) as [->|Hne].
    + rewrite list_lookup_insert_eq by done. by rewrite decide_True.
    + rewrite list_lookup_insert_ne by lia. rewrite Hrow. simpl.
      rewrite decide_False; [done|congruence].
  - rewrite list_lookup_insert_ne by lia.
    rewrite decide_False; [done|congruence].
Qed.

(** *** [move] *)

(** The grid with the tiles at [p] and [q] exchanged, written with the two
    assignments of line 363. *)
Definition swap_cells (g : grid) (p q : Z * Z) : grid :=
  match cell g p, cell g q with
  | Some v1, Some v2 => set_cell (set_cell g p v2) q v1
  | _, _ => g
  end.

Lemma swapped_swap_cells n g p q :
  square n g → in_grid n p → in_grid n q → swapped n g p q (swap_cells g p q).
Proof.
  intros Hsq Hp Hq. unfold swap_cells.
  destruct (cell_is_Some n g p Hsq Hp) as [v1 Hv1].
  destruct (cell_is_Some n g q Hsq Hq) as [v2 Hv2].
  rewrite Hv1, Hv2. split; [by do 2 apply square_set_cell|].
  intros x Hx.
  rewrite (cell_set_cell n), (cell_set_cell n)
    by (done || by apply square_set_cell).
  unfold exchange. repeat case_decide; congruence.
Qed.

Lemma move_swap_cells self a :
  square (N self) (state self) → in_grid (N self) a.1 → in_grid (N self) a.2 →
  move self a = Ok (mk (N self) (swap_cells (state self) a.1 a.2)).
Proof.
  intros Hsq Hp Hq. destruct a as [[r1 c1] [r2 c2]].
  pose proof Hp as [Hr1 Hc1]. pose proof Hq as [Hr2 Hc2].
  unfold move, valid_coord, swap_cells. simpl in *.
  replace (0 <=? r1)%Z with true by lia. replace (r1 <? N self)%Z with true by lia.
  replace (0 <=? c1)%Z with true by lia. replace (c1 <? N self)%Z with true by lia.
  replace (0 <=? r2)%Z with true by lia. replace (r2 <? N self)%Z with true by lia.
  replace (0 <=? c2)%Z with true by lia. replace (c2 <? N self)%Z with true by lia.
  simpl. rewrite map_id.
  destruct (cell_is_Some _ _ _ Hsq Hp) as [v1 Hv1].
  destruct (cell_is_Some _ _ _ Hsq Hq) as [v2 Hv2].
  rewrite Hv1, Hv2.
  rewrite (getitem2_cell _ _ r2 c2 v2 Hq Hv2). simpl.
  rewrite (getitem2_cell _ _ r1 c1 v1 Hp Hv1). simpl.
  rewrite (setitem2_set_cell _ _ r1 c1 v2 Hsq Hp). simpl.
  by rewrite (setitem2_set_cell _ _ r2 c2 v1
                (square_set_cell _ _ (r1, c1) v2 Hsq) Hq).
Qed.

(** The object a constructor call hands back, and [move] keeps it so. *)
Definition well_formed (self : t) : Prop :=
  (2 ≤ N self ≤ 4)%Z ∧ square (N self) (state self).

Lemma for_each_assert {A} (l : list A) (c : A → bool) :
  Forall (λ x, c x = true) l → for_each l tt (λ x _, assert (c x)) = Ok tt.
Proof. induction 1 as [|x l Hx _ IH]; simpl; [done|]. by rewrite Hx. Qed.

Lemma init_square n st fresh :
  (2 ≤ n ≤ 4)%Z → square n st →
  init n (Some st) fresh = Ok (mk n st).
Proof.
  intros Hn [Hlen Hrows]. unfold init.
  replace (2 <=? n)%Z with true by lia. replace (n <=? 4)%Z with true by lia.
  simpl. replace (Z.of_nat (length st) =? n)%Z with true by lia. simpl.
  rewrite for_each_assert; [done|].
  eapply Forall_impl; [exact Hrows|]. simpl. intros; lia.
Qed.

(** *** [successor] *)

Lemma position_in_grid n k :
  (0 < n)%Z → (0 ≤ k < n * n)%Z → in_grid n (position n k).
Proof.
  intros Hn Hk. unfold in_grid, position. simpl.
  pose proof (Z.mod_pos_bound k n Hn).
  pose proof (Z.div_pos k n ltac:(lia) Hn).
  pose proof (Z.div_lt_upper_bound k n n Hn ltac:(lia)). lia.
Qed.

Lemma index_position n k : (0 < n)%Z → index n (position n k) = k.
Proof.
  intros Hn. unfold index, position. simpl.
  pose proof (Z.div_mod k n ltac:(lia)). lia.
Qed.

Lemma position_index n p : in_grid n p → position n (index n p) = p.
Proof.
  intros [Hr Hc]. destruct p as [r c]. unfold index, position. simpl in *.
  rewrite Z.div_add_l by lia. rewrite (Z.div_small c n) by lia.
  rewrite (Z.add_comm (r * n) c), Z.mod_add by lia.
  rewrite Z.mod_small by lia.
  f_equal. lia.
Qed.

Lemma index_bound n p : in_grid n p → (0 ≤ index n p < n * n)%Z.
Proof. intros [Hr Hc]. unfold index. nia. Qed.

Lemma elem_of_pairs m i j : (i, j) ∈ pairs m ↔ (0 ≤ i < j ∧ j < m)%Z.
Proof.
  unfold pairs. rewrite list_elem_of_bind. split.
  - intros (i' & (j' & Hij & Hj%elem_of_range)%list_elem_of_bind
               & Hi%elem_of_range).
    apply list_elem_of_singleton in Hij as [= -> ->]. lia.
  - intros Hij. exists i. rewrite elem_of_range. split; [|lia].
    apply list_elem_of_bind. exists j. rewrite elem_of_range.
    split; [by apply list_elem_of_singleton|lia].
Qed.

(** What [successor] answers for the pair [i < j] of tile ranks. *)
Definition swap_of (n : Z) (st : grid) (ij : Z * Z) : action * grid :=
  (position n ij.1, position n ij.2,
   swap_cells st (position n ij.1) (position n ij.2)).

(** [successor] walks the pairs [i < j] of tile ranks and answers, for
    each, the two positions and the grid with their tiles swapped. *)
Lemma successor_pairs self st :
  (2 ≤ N self ≤ 4)%Z → square (N self) st →
  successor self st
  = Ok (swap_of (N self) st <$> pairs (N self * N self)).
Proof.
  intros Hn Hsq. unfold successor, pairs.
  rewrite (for_each_bind _
    (λ i, range (i + 1) (N self * N self) ≫= λ j, [swap_of (N self) st (i, j)])).
  - simpl. f_equal. rewrite fmap_bind. apply list_bind_ext; [|done].
    intros i. by rewrite fmap_bind.
  - intros i acc Hi%elem_of_range. apply for_each_bind.
    intros j acc' Hj%elem_of_range.
    rewrite init_square, Ok_bind by done.
    rewrite move_swap_cells;
      [done|done|apply position_in_grid; lia..].
Qed.

Lemma pairs_count n :
  (2 ≤ n ≤ 4)%Z →
  Z.of_nat (length (pairs (n * n))) = (n * n * (n * n - 1) / 2)%Z
  ∧ NoDup ((λ ij, (position n ij.1, position n ij.2)) <$> pairs (n * n)).
Proof.
  intros Hn. assert (n = 2 ∨ n = 3 ∨ n = 4)%Z as [-> | [-> | ->]] by lia;
    (split; [by vm_compute|]); apply (bool_decide_unpack _); by vm_compute.
Qed.

(** *** The claims on the puzzle *)

(** C9. On every N x N state with 2 <= N <= 4, [successor] returns
    N^2 (N^2 - 1) / 2 successors, hence at least one; no action occurs
    twice; each successor names two positions of the grid, the one earlier
    in row-major order first, with the state in which the tiles at those
    two positions are swapped; and every such pair of positions occurs. *)
Theorem successor_all_swaps (self : t) (st : grid) :
  (2 ≤ N self ≤ 4)%Z → square (N self) st →
  ∃ l, successor self st = Ok l
    ∧ Z.of_nat (length l) = (N self * N self * (N self * N self - 1) / 2)%Z
    ∧ l ≠ []
    ∧ NoDup l.*1
    ∧ (∀ a g, (a, g) ∈ l →
         in_grid (N self) a.1 ∧ in_grid (N self) a.2
         ∧ (index (N self) a.1 < index (N self) a.2)%Z
         ∧ swapped (N self) st a.1 a.2 g)
    ∧ (∀ p q, in_grid (N self) p → in_grid (N self) q →
         (index (N self) p < index (N self) q)%Z → ∃ g, (p, q, g) ∈ l).
Proof.
  intros Hn Hsq. eexists. split; [by apply successor_pairs|].
  destruct (pairs_count (N self) Hn) as [Hcount Hnd].
  split; [by rewrite length_fmap|]. split.
  { intros Hnil%(f_equal length). rewrite length_fmap in Hnil.
    simpl in Hnil. rewrite Hnil in Hcount. simpl in Hcount.
    assert (N self = 2 ∨ N self = 3 ∨ N self = 4)%Z as [Heq | [Heq | Heq]] by lia;
      rewrite Heq in Hcount; by vm_compute in Hcount. }
  split; [by rewrite <- list_fmap_compose|]. split.
  - intros a g ([i j] & [= -> ->] & [Hi Hj]%elem_of_pairs)%list_elem_of_fmap.
    simpl.
    assert (in_grid (N self) (position (N self) i)) by (apply position_in_grid; lia).
    assert (in_grid (N self) (position (N self) j)) by (apply position_in_grid; lia).
    rewrite !index_position by lia.
    split; [done|]. split; [done|]. split; [lia|].
    by apply swapped_swap_cells.
  - intros p q Hp Hq Hlt. exists (swap_cells st p q).
    apply list_elem_of_fmap. exists (index (N self) p, index (N self) q).
    unfold swap_of. simpl. rewrite !position_index by done. split; [done|].
    apply elem_of_pairs.
    pose proof (index_bound _ _ Hp). pose proof (index_bound _ _ Hq). lia.
Qed.

(** C10. On a well-formed puzzle and for every action whose coordinates
    lie in the grid, [move] succeeds and leaves [N] alone; in the new state
    the two positions hold each other's previous tiles and every other
    position holds the tile it held before; the puzzle stays well-formed.
    The previous state is a value of the model: [move] reads it and builds
    the new one from the copy [temp]. *)
Theorem move_swaps (self : t) (a : action) :
  well_formed self → in_grid (N self) a.1 → in_grid (N self) a.2 →
  ∃ self', move self a = Ok self'
    ∧ N self' = N self
    ∧ well_formed self'
    ∧ cell (state self') a.1 = cell (state self) a.2
    ∧ cell (state self') a.2 = cell (state self) a.1
    ∧ (∀ x, in_grid (N self) x → x ≠ a.1 → x ≠ a.2 →
            cell (state self') x = cell (state self) x).
Proof.
  intros [Hn Hsq] Hp Hq. eexists. split; [by apply move_swap_cells|]. simpl.
  destruct (swapped_swap_cells _ _ _ _ Hsq Hp Hq) as [Hsq' Hcell].
  split; [done|]. split; [done|]. repeat split.
  - rewrite Hcell by done. unfold exchange. by rewrite decide_True.
  - rewrite Hcell by done. unfold exchange. case_decide as Heq; [by rewrite Heq|].
    by rewrite decide_True.
  - intros x Hx Hxp Hxq. rewrite Hcell by done. unfold exchange.
    by rewrite !decide_False.
Qed.

Import Examples.

(** The six successors of [two_swaps]. *)
Lemma successor_all_swaps_witness :
  ∃ l, successor (mk 2 two_swaps) two_swaps = Ok l
    ∧ Z.of_nat (length l) = 6%Z.
Proof.
  destruct (successor_all_swaps (mk 2 two_swaps) two_swaps)
    as (l & Hl & Hlen & _).
  - simpl. lia.
  - split; [done|]. by repeat constructor.
  - exists l. split; [exact Hl|exact Hlen].
Defined.

(** Exchanging the top row of [two_swaps]. *)
Lemma move_swaps_witness :
  ∃ self', move (mk 2 two_swaps) swap_top = Ok self'
    ∧ state self' = [[tile_a; tile_b]; [tile_d; tile_c]].
Proof.
  destruct (move_swaps (mk 2 two_swaps) swap_top)
    as (self' & Hmove & _).
  - split; [simpl; lia|]. split; [done|]. by repeat constructor.
  - split; simpl; lia.
  - split; simpl; lia.
  - exists self'. split; [exact Hmove|].
    vm_compute in Hmove. by injection Hmove as <-.
Defined.

End PuzzleFacts.

(** ** A* *)
Module AstarFacts.
Import Informed Informed.Astar.

Section engine.
Context {State Action : Type} `{Countable State} `{EqDecision Action}.
Context {P : Problem State Action}.
Implicit Types (σ : @locals State Action _ _) (e : @entry State Action).
Implicit Types (tr : list State) (q : list (@entry State Action)).

(** A turn that pops an entry whose state is visited only takes the entry
    off the queue. *)
Lemma iteration_visited σ e q :
  heappop (states_to_expand σ) = Ok (e, q) →
  entry_state e ∈ visited_states σ →
  iteration σ = Ok (Continue (set_queue q σ)).
Proof.
  intros Hpop Hin. unfold iteration. rewrite Hpop, Ok_bind.
  destruct e as [[[[f g] s] p] a]. simpl in *. by rewrite decide_True.
Qed.

(** What a turn that goes on does to the counters and the visited set. *)
Lemma iteration_continue σ e q σ' :
  heappop (states_to_expand σ) = Ok (e, q) →
  iteration σ = Ok (Continue σ') →
  if decide (entry_state e ∈ visited_states σ) then
    num_expanded_states σ' = num_expanded_states σ
    ∧ expanded_states σ' = expanded_states σ
    ∧ visited_states σ' = visited_states σ
  else
    num_expanded_states σ' = num_expanded_states σ + 1
    ∧ expanded_states σ' = expanded_states σ ++ [(e.1.2, e.2)]
    ∧ visited_states σ' = visited_states σ ∪ {[entry_state e]}.
Proof.
  intros Hpop. unfold iteration. rewrite Hpop, Ok_bind.
  destruct e as [[[[f g] s] p] a]. unfold entry_state. simpl.
  case_decide as Hin; [by intros [= <-]|].
  destruct (goal_test s) as [[]|]; simpl; [done| |done].
  destruct (successor s) as [items|]; simpl; [|done].
  destruct (for_each items q _) as [q'|]; simpl; [|done].
  by intros [= <-].
Qed.

Lemma run_inv start tr σ :
  run start tr σ →
  NoDup tr
  ∧ visited_states σ = list_to_set tr
  ∧ num_expanded_states σ = length tr
  ∧ length (expanded_states σ) = length tr.
Proof.
  induction 1 as [|tr σ e q σ' _ (Hnd & Hvis & Hnum & Hlen) Hpop Hit].
  { repeat split; auto using NoDup_nil_2. }
  pose proof (iteration_continue _ _ _ _ Hpop Hit) as Hturn.
  case_decide as Hin.
  - destruct Hturn as (-> & -> & ->). by rewrite app_nil_r.
  - destruct Hturn as (-> & -> & ->). rewrite Hvis in *.
    rewrite !length_app, list_to_set_snoc_L. simpl. repeat split; try lia.
    apply NoDup_app. repeat split; [done| |apply NoDup_singleton].
    intros x Hx ->%list_elem_of_singleton. apply Hin.
    by apply elem_of_list_to_set.
Qed.

(** C4. No state is expanded twice.  Along every run of the loop the
    states expanded so far are pairwise different, they are exactly the
    visited set, and the counter and the record of expansions have one
    entry for each.  When the next entry popped carries a visited state,
    the turn only takes it off the queue: counter, record and visited set
    keep their values and neither the goal test nor the successors are
    asked for.  When it carries a state that is not visited, that state
    has not been expanded before. *)
Theorem no_duplicate_expansion (start : State) tr σ :
  run start tr σ →
  NoDup tr
  ∧ visited_states σ = list_to_set tr
  ∧ num_expanded_states σ = length tr
  ∧ length (expanded_states σ) = length tr
  ∧ ∀ e q, heappop (states_to_expand σ) = Ok (e, q) →
      (entry_state e ∈ visited_states σ →
         iteration σ = Ok (Continue (set_queue q σ)))
      ∧ (entry_state e ∉ visited_states σ → entry_state e ∉ tr).
Proof.
  intros (Hnd & Hvis & Hnum & Hlen)%run_inv. repeat split; try done.
  - by apply iteration_visited.
  - rewrite Hvis. by rewrite elem_of_list_to_set.
Qed.

(** A start state that is a goal is returned at once. *)
Lemma search_goal_start (state : State) (fuel : nat) :
  goal_test state = Ok true →
  search (S fuel) state = Some (Ok (Some [], Fin 0, 1)).
Proof.
  intros Hg. unfold search. simpl. unfold iteration. simpl.
  rewrite decide_False by set_solver. by rewrite Hg.
Qed.

(** The loop header of line 103 cannot unpack a pair. *)
Lemma search_pairs_do_not_unpack (state : State) (fuel : nat) a s items :
  goal_test state = Ok false →
  successor state = Ok (Tuple2 a s :: items) →
  search (S fuel) state = Some (Raise ValueError).
Proof.
  intros Hg Hs. unfold search. simpl. unfold iteration. simpl.
  rewrite decide_False by set_solver. by rewrite Hg, Ok_bind, Hs.
Qed.

(** Lines 104-107 push a child with path cost [1 + 1] and priority
    [heuristic + 1 + 1], whatever the cost of the parent. *)
Lemma push_child_constant_cost (n : nat) a s c h q :
  push_child n (Tuple4 a s c h) q
  = h' ← heuristicfunction s;
    heappush q (Fin (h' + 2), 2%Z, s, (Z.of_nat n - 1)%Z, Some a).
Proof.
  unfold push_child. simpl.
  destruct (heuristicfunction s) as [h'|]; simpl; [|done].
  by replace (h' + 1 + 1)%Z with (h' + 2)%Z by lia.
Qed.

(** *** The costs in the queue *)

Section queue.
Context (Q : @entry State Action → Prop).

Lemma siftdown_loop_Forall turns heap startpos pos newitem heap' :
  Forall Q heap → Q newitem →
  siftdown_loop turns heap startpos pos newitem = Ok heap' →
  Forall Q heap'.
Proof.
  revert heap pos. induction turns as [|turns IH]; intros heap pos Hh Hn; simpl.
  { intros [= <-]. by apply Forall_insert. }
  case_decide; [|intros [= <-]; by apply Forall_insert].
  match goal with
  | |- context [heap !! ?i] => destruct (heap !! i) as [parent|] eqn:Hp
  end; [|done].
  destruct (entry_lt newitem parent) as [[]|]; simpl; [| |done].
  - apply IH; [|done]. apply Forall_insert; [done|].
    by eapply Forall_lookup_1.
  - intros [= <-]. by apply Forall_insert.
Qed.

Lemma siftdown_Forall heap startpos pos heap' :
  Forall Q heap → siftdown heap startpos pos = Ok heap' → Forall Q heap'.
Proof.
  intros Hh. unfold siftdown.
  destruct (heap !! pos) as [newitem|] eqn:Hn; [|done].
  apply siftdown_loop_Forall; [done|]. by eapply Forall_lookup_1.
Qed.

Lemma siftup_loop_Forall turns heap pos heap' pos' :
  Forall Q heap → siftup_loop turns heap pos = Ok (heap', pos') →
  Forall Q heap'.
Proof.
  revert heap pos. induction turns as [|turns IH]; intros heap pos Hh; simpl.
  { by intros [= <- <-]. }
  case_decide; [|by intros [= <- <-]].
  match goal with
  | |- context [mbind _ ?m] => destruct m as [childpos|]; simpl; [|done]
  end.
  destruct (heap !! childpos) as [c|] eqn:Hc; [|done].
  apply IH. apply Forall_insert; [done|]. by eapply Forall_lookup_1.
Qed.

Lemma siftup_Forall heap pos heap' :
  Forall Q heap → siftup heap pos = Ok heap' → Forall Q heap'.
Proof.
  intros Hh. unfold siftup.
  destruct (heap !! pos) as [newitem|] eqn:Hn; [|done].
  destruct (siftup_loop (length heap) heap pos) as [[heap1 pos1]|] eqn:Hl;
    simpl; [|done].
  apply siftdown_Forall. apply Forall_insert.
  - by eapply siftup_loop_Forall.
  - by eapply Forall_lookup_1.
Qed.

(** What is put into the queue stays there unchanged... *)
Lemma heappush_Forall q x q' :
  Forall Q q → Q x → heappush q x = Ok q' → Forall Q q'.
Proof.
  intros Hq Hx. apply siftdown_Forall. apply Forall_app. by split; [|constructor].
Qed.

(** ... and what is taken out of it was put in. *)
Lemma heappop_Forall q e q' :
  Forall Q q → heappop q = Ok (e, q') → Q e ∧ Forall Q q'.
Proof.
  intros Hq. unfold heappop.
  destruct (pop q) as [[lastelt heap]|] eqn:Hpop; simpl; [|done].
  apply pop_Ok in Hpop as ->. apply Forall_app in Hq as [Hh Hl].
  rewrite Forall_singleton in Hl.
  destruct heap as [|returnitem heap]; [by intros [= <- <-]|].
  destruct (siftup _ 0) as [heap1|] eqn:Hs; simpl; [|done].
  intros [= <- <-]. apply Forall_cons in Hh as [Hr Hh]. split; [done|].
  eapply siftup_Forall; [|exact Hs]. simpl. by constructor.
Qed.

End queue.

(** An entry is the root, with cost 0 and no parent, or a child, with
    cost 2 and a parent. *)
Definition root_or_child e : Prop :=
  (e.1.1.1.2 = 0%Z ∧ e.1.2 = (-1)%Z) ∨ (e.1.1.1.2 = 2%Z ∧ (0 ≤ e.1.2)%Z).

Lemma push_children_cost (n : nat) items q q' :
  0 < n → Forall root_or_child q →
  for_each items q (push_child n) = Ok q' → Forall root_or_child q'.
Proof.
  intros Hn. revert q. induction items as [|it items IH]; intros q Hq; simpl.
  { by intros [= <-]. }
  destruct (push_child n it q) as [q1|] eqn:Hpush; simpl; [|done].
  apply IH. destruct it as [a s|a s c h]; [done|].
  rewrite push_child_constant_cost in Hpush.
  destruct (heuristicfunction s) as [h'|]; simpl in Hpush; [|done].
  eapply heappush_Forall; [done| |exact Hpush]. right. simpl. lia.
Qed.

Lemma iteration_cost σ :
  Forall root_or_child (states_to_expand σ) →
  match iteration σ with
  | Ok (Continue σ') => Forall root_or_child (states_to_expand σ')
  | Ok (Goal _ path_cost parent _) =>
      (path_cost = 0%Z ∧ parent = (-1)%Z) ∨ (path_cost = 2%Z ∧ (0 ≤ parent)%Z)
  | Raise _ => True
  end.
Proof.
  intros Hq. unfold iteration.
  destruct (heappop (states_to_expand σ)) as [[e q]|] eqn:Hpop; simpl; [|done].
  destruct (heappop_Forall _ _ _ _ Hq Hpop) as [He Hq'].
  destruct e as [[[[f g] s] p] a]. case_decide; [done|].
  destruct (goal_test s) as [[]|]; simpl; [done| |done].
  destruct (successor s) as [items|]; simpl; [|done].
  destruct (for_each items q _) as [q1|] eqn:Hpush; simpl; [|done].
  eapply push_children_cost; [|exact Hq'|exact Hpush]. lia.
Qed.

Lemma backtrack_nonempty fuel expanded parent (action : option Action) sol r :
  (parent ≠ (-1)%Z ∨ sol ≠ []) →
  backtrack fuel expanded parent action sol = Some (Ok r) → r ≠ [].
Proof.
  revert parent action sol.
  induction fuel as [|fuel IH]; intros parent action sol Hne; simpl; [done|].
  case_decide as Hp.
  - destruct (getitem expanded parent) as [[parent' action']|]; [|done].
    apply IH. right. by destruct sol.
  - intros [= <-]. destruct Hne as [Hne|Hne]; [|done]. by destruct Hp.
Qed.

Lemma search_loop_cost fuel σ sol cost n :
  Forall root_or_child (states_to_expand σ) →
  search_loop fuel σ = Some (Ok (Some sol, cost, n)) →
  (cost = Fin 0 ∧ sol = []) ∨ (cost = Fin 2 ∧ sol ≠ []).
Proof.
  revert σ. induction fuel as [|fuel IH]; intros σ Hq; [done|].
  cbn [search_loop].
  destruct (states_to_expand σ) as [|e0 q0] eqn:Hstk; [done|].
  rewrite <- Hstk in Hq. pose proof (iteration_cost σ Hq) as Hit.
  destruct (iteration σ) as [[σ'|σ' path_cost parent action]|]; [by apply IH| |done].
  match goal with
  | |- context [backtrack ?f ?ex parent action []] =>
      destruct (backtrack f ex parent action []) as [[r|]|] eqn:Hb
  end; [|done..].
  intros [= <- <- <-]. destruct Hit as [[-> ->]|[-> Hp]]; [left|right].
  - simpl in Hb. by injection Hb as <-.
  - split; [done|]. intros Hr%(f_equal reverse).
    rewrite reverse_involutive in Hr. simpl in Hr.
    eapply backtrack_nonempty; [|exact Hb|exact Hr]. left. lia.
Qed.

(** Whatever the problem and however long the solution, the cost that
    [Astar.search] reports is 0 when the start is a goal and 2 when it is
    not. *)
Lemma reported_cost_is_0_or_2 (state : State) fuel sol cost n :
  search fuel state = Some (Ok (Some sol, cost, n)) →
  (cost = Fin 0 ∧ sol = []) ∨ (cost = Fin 2 ∧ sol ≠ []).
Proof.
  apply search_loop_cost. repeat constructor.
Qed.

End engine.
Import Examples.

(** A run in which states come back into the queue.  On [shuttle 2] from
    [0]: the first turn expands [0], the second pops [0] again and drops
    it, the third expands [1]; the entry popped next carries the visited
    state [0] once more, and the fourth turn only takes it off the
    queue. *)
Lemma no_duplicate_expansion_witness :
  NoDup [0; 1]
  ∧ visited_states (astar_after (P:=shuttle 2) 3 0) = list_to_set [0; 1]
  ∧ num_expanded_states (astar_after (P:=shuttle 2) 3 0) = 2
  ∧ length (expanded_states (astar_after (P:=shuttle 2) 3 0)) = 2
  ∧ heappop (P:=shuttle 2) (states_to_expand (astar_after (P:=shuttle 2) 3 0))
    = Ok ((Fin 2, 2%Z, 0, 1%Z, Some 0), [(Fin 2, 2%Z, 2, 1%Z, Some 1)])
  ∧ iteration (P:=shuttle 2) (astar_after (P:=shuttle 2) 3 0)
    = Ok (Continue (set_queue [(Fin 2, 2%Z, 2, 1%Z, Some 1)]
                              (astar_after (P:=shuttle 2) 3 0))).
Proof.
  assert (run (P:=shuttle 2) 0 [0; 1] (astar_after (P:=shuttle 2) 3 0))
    as Hrun.
  { apply (run_turn (P:=shuttle 2) 0 [0] (astar_after (P:=shuttle 2) 2 0)
             (Fin 2, 2%Z, 1, 0%Z, Some 1) []);
      [|vm_compute; reflexivity..].
    apply (run_turn (P:=shuttle 2) 0 [0] (astar_after (P:=shuttle 2) 1 0)
             (Fin 2, 2%Z, 0, 0%Z, Some 0) [(Fin 2, 2%Z, 1, 0%Z, Some 1)]);
      [|vm_compute; reflexivity..].
    apply (run_turn (P:=shuttle 2) 0 [] (initial 0)
             (Inf, 0%Z, 0, (-1)%Z, None) []);
      [apply run_initial|vm_compute; reflexivity..]. }
  destruct (no_duplicate_expansion (P:=shuttle 2) 0 [0; 1] _ Hrun)
    as (Hnd & Hvis & Hnum & Hlen & Hturn).
  assert (heappop (P:=shuttle 2) (states_to_expand (astar_after (P:=shuttle 2) 3 0))
          = Ok ((Fin 2, 2%Z, 0, 1%Z, Some 0), [(Fin 2, 2%Z, 2, 1%Z, Some 1)]))
    as Hpop by (vm_compute; reflexivity).
  destruct (Hturn _ _ Hpop) as [Hdrop _].
  repeat (split; [assumption|]).
  apply Hdrop. rewrite Hvis. apply elem_of_list_to_set. left.
Defined.

End AstarFacts.

(** ** The puzzle of the informed program *)
Module AstarPuzzleFacts.
Import Informed Informed.Astar Informed.FourDominoes.

(** [move] is the [move] of the uninformed program; [goal_state] is kept. *)
Lemma move_as_uninformed self a :
  move self a
  = u ← Uninformed.FourDominoes.move
        (Uninformed.FourDominoes.mk (N self) (state self)) a;
    Ok (mk (Uninformed.FourDominoes.N u) (Uninformed.FourDominoes.state u)
           (goal_state self)).
Proof.
  destruct a as [[r1 c1] [r2 c2]]. unfold move, Uninformed.FourDominoes.move.
  unfold valid_coord, Uninformed.FourDominoes.valid_coord. simpl.
  repeat match goal with
         | |- context [mbind _ ?m] => destruct m; simpl
         end; done.
Qed.

Lemma init_drops_goal_state n st goal fresh :
  (2 ≤ n ≤ 4)%Z → square n st →
  init n (Some st) goal fresh = Ok (mk n st None).
Proof.
  intros Hn [Hlen Hrows]. unfold init.
  replace (2 <=? n)%Z with true by lia. replace (n <=? 4)%Z with true by lia.
  simpl. replace (Z.of_nat (length st) =? n)%Z with true by lia. simpl.
  rewrite PuzzleFacts.for_each_assert; [done|].
  eapply Forall_impl; [exact Hrows|]. simpl. intros; lia.
Qed.

(** Without the attribute [goal_state] the heuristic stops at the first
    tile. *)
Lemma heuristic_needs_goal_state self st :
  (0 < N self)%Z → square (N self) st → goal_state self = None →
  heuristicfunction self st = Raise AttributeError.
Proof.
  intros Hn Hsq Hgoal. unfold heuristicfunction.
  rewrite (range_cons 0) by done. apply for_each_raise, for_each_raise.
  destruct (PuzzleFacts.cell_is_Some _ st (0, 0)%Z Hsq) as [t Ht];
    [split; simpl; lia|].
  rewrite (PuzzleFacts.getitem2_cell _ _ _ _ t) by (done || split; simpl; lia).
  unfold get_goal_state. by rewrite Hgoal.
Qed.

(** [successor] raises on every state: the copy it builds for the first
    pair of tiles has no [goal_state], and line 332 asks for its
    heuristic. *)
Lemma successor_raises self st :
  (2 ≤ N self ≤ 4)%Z → square (N self) st →
  successor self st = Raise AttributeError.
Proof.
  intros Hn Hsq. unfold successor.
  rewrite (range_cons 0) by lia. apply for_each_raise.
  rewrite (range_cons (0 + 1)) by lia. apply for_each_raise.
  rewrite init_drops_goal_state, Ok_bind by done.
  rewrite move_as_uninformed.
  rewrite PuzzleFacts.move_swap_cells;
    [|done|apply PuzzleFacts.position_in_grid; simpl; lia..].
  rewrite !Ok_bind. simpl.
  rewrite heuristic_needs_goal_state; [done|simpl; lia| |done].
  apply PuzzleFacts.swapped_swap_cells;
    [done|apply PuzzleFacts.position_in_grid; lia..].
Qed.

(** *** The claims on A* *)

(** C1. [Astar.search] raises whenever it has to expand a state: on
    every well-formed puzzle and every N x N start state that is not a
    goal, the first turn of the loop ends in [AttributeError], raised by
    [heuristicfunction] inside [successor]. *)
Theorem search_raises (self : t) (st : grid) (fuel : nat) :
  (2 ≤ N self ≤ 4)%Z → square (N self) st →
  goal_test self st = Ok false →
  search (P:=problem self) (S fuel) st = Some (Raise AttributeError).
Proof.
  intros Hn Hsq Hg. unfold search. simpl. unfold iteration. simpl.
  rewrite decide_False by set_solver. rewrite Hg, Ok_bind.
  by rewrite successor_raises.
Qed.

(** C8. On a start state that passes [goal_test], [Astar.search] returns
    the empty list of actions, cost 0 and one expanded state, whatever
    the size of the grid. *)
Theorem search_solved_start (self : t) (st : grid) (fuel : nat) :
  goal_test self st = Ok true →
  search (P:=problem self) (S fuel) st = Some (Ok (Some [], Fin 0, 1)).
Proof. intros Hg. by apply AstarFacts.search_goal_start. Qed.

Import Examples.

(** The first expansion on [one_swap]. *)
Lemma search_raises_witness :
  search (P:=astar_puzzle) 1 one_swap = Some (Raise AttributeError).
Proof.
  apply (search_raises (mk 2 one_swap (Some solved)) one_swap 0).
  - simpl. lia.
  - split; [done|]. by repeat constructor.
  - by vm_compute.
Defined.

(** The 2x2 puzzle started on its goal configuration. *)
Lemma search_solved_start_witness :
  search (P:=problem (mk 2 solved (Some solved))) 1 solved
  = Some (Ok (Some [], Fin 0, 1)).
Proof.
  apply (search_solved_start (mk 2 solved (Some solved)) solved 0).
  by vm_compute.
Defined.

(** C2. The path cost pushed with a child is the constant [1 + 1], not the
    cost of the parent plus one.  On the counter problem the child of the
    root (cost 0) enters the queue with cost 2 and priority 2 + heuristic;
    the goal one step away is reported with cost 2, and so is the goal
    three steps away. *)
Theorem child_cost_is_constant :
  (∃ σ, iteration (P:=counter 1) (initial 0) = Ok (Continue σ)
        ∧ states_to_expand σ = [(Fin 2, 2%Z, 1, 0%Z, Some 1)])
  ∧ search (P:=counter 1) 5 0 = Some (Ok (Some [Some 1], Fin 2, 2))
  ∧ search (P:=counter 3) 5 0
    = Some (Ok (Some [Some 1; Some 1; Some 1], Fin 2, 4)).
Proof.
  split; [eexists; split; [by cbv|by vm_compute]|]. by vm_compute.
Qed.

End AstarPuzzleFacts.

(** ** More on the puzzle of the uninformed program *)
Module PuzzleExtras.
Import Uninformed Uninformed.FourDominoes PuzzleFacts.

(** Two square grids with the same tile at every position are equal. *)
Lemma grid_ext n (g g' : grid) :
  square n g → square n g' →
  (∀ x, in_grid n x → cell g x = cell g' x) → g = g'.
Proof.
  intros [Hlen Hrows] [Hlen' Hrows'] Hcell.
  apply list_eq_same_length with (length g); [lia..|].
  intros i row row' Hi Hrow Hrow'.
  rewrite Forall_forall in Hrows, Hrows'.
  pose proof (Hrows _ (list_elem_of_lookup_2 _ _ _ Hrow)) as Hl.
  pose proof (Hrows' _ (list_elem_of_lookup_2 _ _ _ Hrow')) as Hl'.
  apply list_eq_same_length with (length row); [lia..|].
  intros j x x' Hj Hx Hx'.
  specialize (Hcell (Z.of_nat i, Z.of_nat j)). unfold cell in Hcell.
  simpl in Hcell. rewrite !Nat2Z.id, Hrow, Hrow' in Hcell. simpl in Hcell.
  rewrite Hx, Hx' in Hcell. apply (inj Some), Hcell. split; simpl; lia.
Qed.

Lemma exchange_involutive p q x : exchange p q (exchange p q x) = x.
Proof. unfold exchange. repeat case_decide; congruence. Qed.

Lemma exchange_comm p q x : exchange p q x = exchange q p x.
Proof. unfold exchange. repeat case_decide; congruence. Qed.

Lemma exchange_in_grid n p q x :
  in_grid n p → in_grid n q → in_grid n x → in_grid n (exchange p q x).
Proof. intros. unfold exchange. by repeat case_decide. Qed.

Lemma swap_cells_involutive n g p q :
  square n g → in_grid n p → in_grid n q →
  swap_cells (swap_cells g p q) p q = g.
Proof.
  intros Hsq Hp Hq.
  destruct (swapped_swap_cells n g p q Hsq Hp Hq) as [Hsq1 Hc1].
  destruct (swapped_swap_cells n _ p q Hsq1 Hp Hq) as [Hsq2 Hc2].
  apply (grid_ext n); [done..|]. intros x Hx.
  rewrite Hc2, Hc1 by (done || by apply exchange_in_grid).
  by rewrite exchange_involutive.
Qed.

Lemma swap_cells_comm n g p q :
  square n g → in_grid n p → in_grid n q →
  swap_cells g p q = swap_cells g q p.
Proof.
  intros Hsq Hp Hq.
  destruct (swapped_swap_cells n g p q Hsq Hp Hq) as [Hsq1 Hc1].
  destruct (swapped_swap_cells n g q p Hsq Hq Hp) as [Hsq2 Hc2].
  apply (grid_ext n); [done..|]. intros x Hx.
  by rewrite Hc1, Hc2, exchange_comm.
Qed.

Lemma for_each_assert_fails {A} (l : list A) (c : A → bool) :
  ¬ Forall (λ x, c x = true) l →
  for_each l tt (λ x _, assert (c x)) = Raise AssertionError.
Proof.
  induction l as [|x l IH]; intros Hn; simpl.
  - destruct Hn. constructor.
  - destruct (c x) eqn:Hx; simpl; [|done].
    apply IH. intros Hl. apply Hn. by constructor.
Qed.

(** X1. The constructor, given a state, accepts exactly the grids of [N]
    rows of [N] tiles with [N] between 2 and 4, and stores [N] and the
    state as they are; on anything else it raises [AssertionError]. *)
Theorem init_accepts_exactly_square_grids (n : Z) (st fresh : grid) :
  ((2 ≤ n ≤ 4)%Z ∧ square n st ∧ init n (Some st) fresh = Ok (mk n st))
  ∨ (¬ ((2 ≤ n ≤ 4)%Z ∧ square n st)
     ∧ init n (Some st) fresh = Raise AssertionError).
Proof.
  destruct (decide (2 ≤ n ≤ 4)%Z) as [Hn|Hn].
  2:{ right. split; [tauto|]. unfold init.
      destruct (2 <=? n)%Z eqn:H2; destruct (n <=? 4)%Z eqn:H4; try done. lia. }
  destruct (decide (Z.of_nat (length st) = n)) as [Hlen|Hlen].
  2:{ right. split; [unfold square; tauto|]. unfold init.
      replace (2 <=? n)%Z with true by lia. replace (n <=? 4)%Z with true by lia.
      simpl. by replace (Z.of_nat (length st) =? n)%Z with false by lia. }
  destruct (decide (Forall (λ row : list Domino, Z.of_nat (length row) = n) st))
    as [Hrows|Hrows].
  { left. split; [done|]. split; [done|]. by apply init_square. }
  right. split; [unfold square; tauto|]. unfold init.
  replace (2 <=? n)%Z with true by lia. replace (n <=? 4)%Z with true by lia.
  simpl. replace (Z.of_nat (length st) =? n)%Z with true by lia. simpl.
  rewrite for_each_assert_fails; [done|].
  intros Hall. apply Hrows. eapply Forall_impl; [exact Hall|].
  simpl. intros; lia.
Qed.

Lemma move_outside (self : t) (a : action) :
  ¬ (in_grid (N self) a.1 ∧ in_grid (N self) a.2) →
  move self a = Raise AssertionError.
Proof.
  destruct a as [[r1 c1] [r2 c2]]. unfold in_grid, move, valid_coord. simpl.
  intros Hbad.
  destruct (0 <=? r1)%Z eqn:?, (r1 <? N self)%Z eqn:?,
           (0 <=? c1)%Z eqn:?, (c1 <? N self)%Z eqn:?,
           (0 <=? r2)%Z eqn:?, (r2 <? N self)%Z eqn:?,
           (0 <=? c2)%Z eqn:?, (c2 <? N self)%Z eqn:?; try done.
  destruct Hbad. lia.
Qed.

(** X2. On a well-formed puzzle [move] fails in one way only: it raises
    [AssertionError], and does so exactly when a coordinate of the action
    lies outside [0 .. N-1]. *)
Theorem move_fails_only_on_outside_coordinates (self : t) (a : action) (e : exn) :
  well_formed self →
  move self a = Raise e
  ↔ e = AssertionError ∧ ¬ (in_grid (N self) a.1 ∧ in_grid (N self) a.2).
Proof.
  intros [Hn Hsq].
  destruct (decide (in_grid (N self) a.1 ∧ in_grid (N self) a.2)) as [[Hp Hq]|Hbad].
  - rewrite move_swap_cells by done. split; [done|]. intros [_ []]. done.
  - rewrite move_outside by done. split; [by intros [= <-]|by intros [-> _]].
Qed.

(** X3. [move] undoes itself: on a well-formed puzzle, applying the same
    valid action twice gives back the puzzle one started from. *)
Theorem move_twice_is_identity (self : t) (a : action) :
  well_formed self → in_grid (N self) a.1 → in_grid (N self) a.2 →
  ∃ self', move self a = Ok self' ∧ move self' a = Ok self.
Proof.
  intros [Hn Hsq] Hp Hq. eexists. split; [by apply move_swap_cells|].
  rewrite move_swap_cells; simpl;
    [|by apply swapped_swap_cells|done..].
  rewrite (swap_cells_involutive (N self)) by done. by destruct self.
Qed.

(** X4. The order of the two positions in an action does not matter. *)
Theorem move_is_symmetric (self : t) (p q : Z * Z) :
  well_formed self → move self (p, q) = move self (q, p).
Proof.
  intros [Hn Hsq].
  destruct (decide (in_grid (N self) p ∧ in_grid (N self) q)) as [[Hp Hq]|Hbad].
  - rewrite !move_swap_cells by done. simpl.
    by rewrite (swap_cells_comm (N self)).
  - rewrite !move_outside; simpl; tauto.
Qed.

(** X5. Every move can be taken back: a successor of a state has that
    state among its own successors, under the same action. *)
Theorem successor_can_be_undone (self : t) (st : grid) l a g :
  (2 ≤ N self ≤ 4)%Z → square (N self) st →
  successor self st = Ok l → (a, g) ∈ l →
  ∃ l', successor self g = Ok l' ∧ (a, st) ∈ l'.
Proof.
  intros Hn Hsq. rewrite successor_pairs by done. intros [= <-].
  intros ([i j] & [= -> ->] & Hij)%list_elem_of_fmap. simpl.
  pose proof Hij as [Hi Hj]%elem_of_pairs.
  assert (in_grid (N self) (position (N self) i)) by (apply position_in_grid; lia).
  assert (in_grid (N self) (position (N self) j)) by (apply position_in_grid; lia).
  eexists. split; [apply successor_pairs; [done|by apply swapped_swap_cells]|].
  apply list_elem_of_fmap. exists (i, j). split; [|done].
  unfold swap_of. simpl. by rewrite (swap_cells_involutive (N self)).
Qed.

(** *** [goal_test] *)

(** The tile at [(i, j)] does not fit its upper or its left neighbour. *)
Definition misfit (g : grid) (i j : Z) : bool :=
  (if (0 <? i)%Z then
     match cell g (i, j), cell g (i - 1, j)%Z with
     | Some x, Some y => negb (is_under x y)
     | _, _ => false
     end
   else false)
  || (if (0 <? j)%Z then
        match cell g (i, j), cell g (i, j - 1)%Z with
        | Some x, Some y => negb (is_on_the_right_of x y)
        | _, _ => false
        end
      else false).

Lemma for_return_scan {A} (l : list A) (c : A → bool)
    (body : A → result (option bool)) :
  (∀ x, x ∈ l → body x = Ok (if c x then Some false else None)) →
  for_return l body = Ok (if existsb c l then Some false else None).
Proof.
  induction l as [|x l IH]; intros Hbody; simpl; [done|].
  rewrite Hbody by left. simpl. destruct (c x); simpl; [done|].
  apply IH. intros y Hy. apply Hbody. by right.
Qed.

Lemma goal_test_scan (self : t) (st : grid) :
  square (N self) st →
  goal_test self st
  = Ok (negb (existsb (λ i, existsb (misfit st i) (range 0 (N self)))
                      (range 0 (N self)))).
Proof.
  intros Hsq. unfold goal_test.
  rewrite (for_return_scan _
             (λ i, existsb (misfit st i) (range 0 (N self)))).
  { simpl. by destruct (existsb _ _). }
  intros i Hi%elem_of_range. apply for_return_scan.
  intros j Hj%elem_of_range. unfold misfit.
  destruct (cell_is_Some _ st (i, j) Hsq) as [x Hx]; [split; simpl; lia|].
  pose proof (getitem2_cell (N self) st i j x) as Gx.
  rewrite Hx.
  destruct (0 <? i)%Z eqn:H0i; destruct (0 <? j)%Z eqn:H0j;
    repeat match goal with
    | |- context [cell st (?a, ?b)] =>
        let y := fresh "y" in let Hy := fresh "Hy" in
        destruct (cell_is_Some _ st (a, b) Hsq) as [y Hy];
        [split; simpl; lia|];
        rewrite Hy;
        rewrite (getitem2_cell (N self) st a b y) by (done || split; simpl; lia)
    end;
    rewrite ?Gx by (done || split; simpl; lia);
    rewrite ?Ok_bind; simpl;
    repeat match goal with
    | |- context [negb ?c] => destruct (negb c); simpl
    end; 
    rewrite ?Gx by (done || split; simpl; lia); simpl;
    repeat match goal with
    | |- context [negb ?c] => destruct (negb c); simpl
    end; done.
Qed.

Lemma goal_test_fit (self : t) (st : grid) :
  square (N self) st →
  ∃ b, goal_test self st = Ok b ∧ (b = true ↔ fits (N self) st).
Proof.
  intros Hsq. eexists. split; [by apply goal_test_scan|].
  rewrite negb_true_iff. split.
  - intros Hnone i j x Hi Hj Hx.
    assert (misfit st i j = false) as Hfit.
    { destruct (misfit st i j) eqn:Hm; [|done].
      rewrite <- Hnone. symmetry. apply existsb_exists. exists i.
      split; [apply list_elem_of_In, elem_of_range; lia|].
      apply existsb_exists. exists j.
      split; [apply list_elem_of_In, elem_of_range; lia|done]. }
    unfold misfit in Hfit. rewrite Hx in Hfit.
    apply orb_false_elim in Hfit as [Hup Hleft]. split.
    + intros y H0i Hy. apply Z.ltb_lt in H0i. rewrite H0i, Hy in Hup.
      apply negb_false_iff in Hup. by apply Z.eqb_eq.
    + intros y H0j Hy. apply Z.ltb_lt in H0j. rewrite H0j, Hy in Hleft.
      apply negb_false_iff in Hleft. by apply Z.eqb_eq.
  - intros Hfits. apply not_true_is_false.
    intros (i & Hi%list_elem_of_In%elem_of_range
              & (j & Hj%list_elem_of_In%elem_of_range & Hm)%existsb_exists)
           %existsb_exists.
    destruct (cell_is_Some _ st (i, j) Hsq) as [x Hx]; [split; simpl; lia|].
    destruct (Hfits i j x) as [Hup Hleft]; [lia..|done|].
    unfold misfit in Hm. rewrite Hx in Hm.
    apply orb_true_iff in Hm as [Hm|Hm].
    + destruct (0 <? i)%Z eqn:H0i; [|done].
      destruct (cell st (i - 1, j)%Z) as [y|] eqn:Hy; [|done].
      apply negb_true_iff in Hm. unfold is_under in Hm.
      rewrite (Hup y) in Hm by (done || lia). by rewrite Z.eqb_refl in Hm.
    + destruct (0 <? j)%Z eqn:H0j; [|done].
      destruct (cell st (i, j - 1)%Z) as [y|] eqn:Hy; [|done].
      apply negb_true_iff in Hm. unfold is_on_the_right_of in Hm.
      rewrite (Hleft y) in Hm by (done || lia). by rewrite Z.eqb_refl in Hm.
Qed.

Lemma goal_test_of_fits (self : t) (st : grid) :
  square (N self) st → fits (N self) st → goal_test self st = Ok true.
Proof.
  intros Hsq Hfits. destruct (goal_test_fit self st Hsq) as (b & -> & Hb).
  f_equal. by apply Hb.
Qed.

(** X6. On a grid of [N] rows of [N] tiles [goal_test] raises nothing, and
    answers [True] exactly when every tile shows on top what the tile above
    it shows at the bottom, and on its left what the tile on its left shows
    on the right. *)
Theorem goal_test_decides_fit (self : t) (st : grid) :
  square (N self) st →
  ∃ b, goal_test self st = Ok b ∧ (b = true ↔ fits (N self) st).
Proof. apply goal_test_fit. Qed.

Import Examples.

Lemma example_well_formed : well_formed (mk 2 two_swaps).
Proof. split; [simpl; lia|]. split; [done|]. by repeat constructor. Qed.

(** [move] with a row index of 2 on the 2x2 puzzle. *)
Lemma move_fails_only_on_outside_coordinates_witness :
  move (mk 2 two_swaps) ((2, 0), (0, 1))%Z = Raise AssertionError.
Proof.
  apply (move_fails_only_on_outside_coordinates (mk 2 two_swaps)
           ((2, 0), (0, 1))%Z AssertionError example_well_formed).
  split; [done|]. unfold in_grid. simpl. lia.
Defined.

(** The top row of [two_swaps] exchanged twice. *)
Lemma move_twice_is_identity_witness :
  ∃ self', move (mk 2 two_swaps) swap_top = Ok self'
           ∧ move self' swap_top = Ok (mk 2 two_swaps).
Proof.
  apply (move_twice_is_identity (mk 2 two_swaps) swap_top example_well_formed);
    split; simpl; lia.
Defined.

(** The two orientations of [swap_top]. *)
Lemma move_is_symmetric_witness :
  move (mk 2 two_swaps) ((0, 0), (0, 1))%Z
  = move (mk 2 two_swaps) ((0, 1), (0, 0))%Z.
Proof. apply (move_is_symmetric (mk 2 two_swaps)), example_well_formed. Defined.

(** From [two_swaps] to [one_swap] and back, by [swap_bottom]. *)
Lemma successor_can_be_undone_witness :
  ∃ l', successor (mk 2 two_swaps) one_swap = Ok l'
        ∧ (swap_bottom, two_swaps) ∈ l'.
Proof.
  destruct (successor (mk 2 two_swaps) two_swaps) as [l|] eqn:Hl;
    [|by vm_compute in Hl].
  apply (successor_can_be_undone (mk 2 two_swaps) two_swaps l swap_bottom one_swap).
  - simpl. lia.
  - split; [done|]. by repeat constructor.
  - exact Hl.
  - vm_compute in Hl. injection Hl as <-. apply (bool_decide_unpack _). by vm_compute.
Defined.

(** [solved] passes the goal test, so it fits. *)
Lemma goal_test_decides_fit_witness :
  ∃ b, goal_test (mk 2 solved) solved = Ok b ∧ (b = true ↔ fits 2 solved).
Proof.
  apply (goal_test_decides_fit (mk 2 solved) solved).
  split; [done|]. by repeat constructor.
Defined.

End PuzzleExtras.

(** ** More on depth-limited DFS and iterative deepening *)
Module DFSExtras.
Import Uninformed Uninformed.DepthLimitedDFS DFSFacts.

Section engine.
Context {State Action : Type} `{Countable State}.
Context {P : Problem State Action}.
Implicit Types (σ : @locals State Action _ _) (e : @entry State Action).
Implicit Types (pth : list State) (sol : list (option Action)).

(** *** The actions on the path *)

(** [sol] holds, from its second entry on, the action that leads to the
    state at the same rank of [pth] from the state before it. *)
Definition aligned pth sol : Prop :=
  length sol = length pth
  ∧ ∀ i p c, pth !! i = Some p → pth !! S i = Some c →
      ∃ l a, successor p = Ok l ∧ (a, c) ∈ l ∧ sol !! S i = Some (Some a).

(** A stack entry below the root carries the action that leads to its
    state from the path state one level up. *)
Definition child_by_action pth e : Prop :=
  e.1.2 = 0
  ∨ ∃ d p l a, e.1.2 = S d ∧ pth !! d = Some p
               ∧ successor p = Ok l ∧ (a, e.1.1) ∈ l ∧ e.2 = Some a.

Definition inv_actions (start : State) σ : Prop :=
  inv start σ
  ∧ aligned (path σ) (solution σ)
  ∧ Forall (child_by_action (path σ)) (states_to_expand σ).

Lemma inv_actions_initial start : inv_actions start (initial start).
Proof.
  split; [apply inv_initial|]. split.
  - split; [done|]. by intros [|i] ???.
  - repeat constructor.
Qed.

(** Below the entry on top the stack holds nothing deeper. *)
Lemma inv_below_top start σ stk e :
  inv start σ → states_to_expand σ = stk ++ [e] →
  Forall (λ e' : entry, e'.1.2 ≤ e.1.2) stk.
Proof.
  intros (_ & _ & _ & [[_ Hs]|(_ & _ & Hsort)]) Hstk; rewrite Hstk in *.
  - destruct Hs as [[-> _]%snoc_eq_singleton|Hs%snoc_ne_nil]; [constructor|done].
  - apply StronglySorted_app in Hsort as (Hcross & _ & _).
    apply Forall_forall. intros e' He'. apply Hcross; [done|]. by left.
Qed.

Lemma aligned_accept start σ stk e σ' :
  inv start σ → aligned (path σ) (solution σ) →
  child_by_action (path σ) e →
  states_to_expand σ = stk ++ [e] →
  path σ' = take e.1.2 (path σ) ++ [e.1.1] →
  solution σ' = take e.1.2 (solution σ) ++ [e.2] →
  aligned (path σ') (solution σ').
Proof.
  intros Hinv [Hlen Hal] Hch Hstk -> ->.
  pose proof (inv_top_depth _ _ _ _ Hinv Hstk) as Hd.
  split; [rewrite !length_app, !length_take; simpl; lia|].
  intros i p c Hp Hc.
  apply lookup_snoc_Some in Hc as [[Hi Hc]|[Hi <-]];
    rewrite length_take in Hi.
  - rewrite lookup_app_l in Hp by (rewrite length_take; lia).
    apply lookup_take_Some in Hp as [Hp _]. apply lookup_take_Some in Hc as [Hc _].
    destruct (Hal i p c Hp Hc) as (l & a & Hs & Hin & Hsol).
    exists l, a. repeat split; [done..|].
    rewrite lookup_app_l by (rewrite length_take; lia).
    apply lookup_take_Some. split; [done|lia].
  - destruct Hch as [H0|(d & p' & l & a & Hd' & Hp' & Hs & Hin & Ha)]; [lia|].
    assert (i = d) as -> by lia.
    rewrite lookup_app_l in Hp by (rewrite length_take; lia).
    apply lookup_take_Some in Hp as [Hp _]. simplify_eq.
    exists l, a. repeat split; [done..|].
    rewrite lookup_app_r by (rewrite length_take; lia).
    rewrite length_take.
    replace (S d - e.1.2 `min` length (solution σ)) with 0 by lia.
    simpl. by rewrite Ha.
Qed.

Lemma inv_actions_turn limit start σ σ' :
  inv_actions start σ → iteration limit σ = Ok (Continue σ') →
  inv_actions start σ'.
Proof.
  intros (Hinv & Hal & Hch) Hit.
  split; [by eapply inv_turn|]. revert Hit. unfold iteration.
  destruct (pop (states_to_expand σ)) as [[e stk]|] eqn:Hpop; simpl; [|done].
  apply pop_Ok in Hpop. rewrite Hpop in Hch.
  rewrite Forall_app, Forall_singleton in Hch. destruct Hch as [Hstk He].
  destruct (ignored limit e (set_stack stk σ)) eqn:Hig.
  { by intros [= <-]. }
  apply orb_false_elim in Hig as [Hfresh%bool_decide_eq_false _].
  simpl in Hfresh.
  destruct (accept_spec _ _ _ _ Hinv Hpop Hfresh)
    as (σ1 & -> & Hpath & Hsol & _ & _ & Hlen & _ & _ & Hstk1 & _).
  simpl. destruct (goal_test e.1.1) as [[]|]; simpl; [done| |done].
  destruct (successor e.1.1) as [children|] eqn:Hsucc; simpl; [|done].
  intros [= <-]. simpl.
  pose proof (inv_top_depth _ _ _ _ Hinv Hpop) as Hd.
  pose proof (inv_below_top _ _ _ _ Hinv Hpop) as Hle.
  split; [by eapply aligned_accept|].
  rewrite Hstk1. apply Forall_app. split.
  - apply Forall_forall. intros e' He'.
    rewrite Forall_forall in Hstk, Hle. specialize (Hle _ He').
    destruct (Hstk _ He') as [H0|(d & p & l & a & Heq & Hp & Hs & Hin & Ha)];
      [by left|right].
    exists d, p, l, a. repeat split; [done| |done..].
    rewrite Hpath, lookup_app_l by (rewrite length_take; lia).
    apply lookup_take_Some. split; [done|lia].
  - apply Forall_forall. intros e' ([a c] & -> & Hin)%list_elem_of_fmap.
    right. exists e.1.2, e.1.1, children, a. simpl.
    repeat split; [lia| |done..].
    rewrite Hpath, lookup_app_r; rewrite length_take; [|lia].
    by replace (e.1.2 - e.1.2 `min` length (path σ)) with 0 by lia.
Qed.

Lemma aligned_replays pth sol p0 rest f :
  aligned pth sol → pth = p0 :: rest → last pth = Some f →
  replays p0 (tail sol) f.
Proof.
  revert sol p0 rest. induction pth as [|p pth IH]; intros sol p0 rest; [done|].
  intros [Hlen Hal] [= -> ->] Hlast.
  destruct sol as [|a0 sol]; [done|]. simpl in *.
  destruct rest as [|p1 rest].
  { destruct sol; [|done]. simplify_eq/=. constructor. }
  destruct (Hal 0 p0 p1) as (l & a & Hs & Hin & Ha); [done..|].
  destruct sol as [|a1 sol]; simplify_eq/=.
  econstructor; [done..|].
  apply (IH (Some a :: sol) p1 rest); [|done|done].
  split; [simpl in *; lia|].
  intros i p c Hp Hc. apply (Hal (S i) p c Hp Hc).
Qed.

(** A turn that returns hands out actions that lead to a goal. *)
Lemma iteration_return_valid limit start σ sol n :
  inv_actions start σ →
  iteration limit σ = Ok (Return (Some sol, n)) →
  ∃ final, replays start sol final ∧ goal_test final = Ok true.
Proof.
  intros (Hinv & Hal & Hch). unfold iteration.
  destruct (pop (states_to_expand σ)) as [[e stk]|] eqn:Hpop; simpl; [|done].
  apply pop_Ok in Hpop. rewrite Hpop in Hch.
  rewrite Forall_app, Forall_singleton in Hch. destruct Hch as [Hstk He].
  destruct (ignored limit e (set_stack stk σ)) eqn:Hig; [done|].
  apply orb_false_elim in Hig as [Hfresh%bool_decide_eq_false _].
  simpl in Hfresh.
  destruct (accept_spec _ _ _ _ Hinv Hpop Hfresh)
    as (σ1 & -> & Hpath & Hsol & _ & _ & Hlen & _ & [Hhead _] & _ & _).
  simpl. destruct (goal_test e.1.1) as [[]|] eqn:Hg; simpl; [| |done].
  2:{ by destruct (successor e.1.1). }
  intros [= <- <-]. exists e.1.1. split; [|done].
  assert (aligned (path σ1) (solution σ1)) as Hal1
    by (by eapply aligned_accept).
  assert (last (path σ1) = Some e.1.1) as Hlast
    by (by rewrite Hpath, last_snoc).
  destruct (path σ1) as [|p0 rest]; [done|]. simpl in Hhead.
  injection Hhead as ->.
  by eapply (aligned_replays (start :: rest)).
Qed.

Lemma search_loop_valid limit start fuel σ sol n :
  inv_actions start σ →
  search_loop fuel limit σ = Some (Ok (Some sol, n)) →
  ∃ final, replays start sol final ∧ goal_test final = Ok true.
Proof.
  revert σ. induction fuel as [|fuel IH]; intros σ Hinv; simpl; [done|].
  destruct (states_to_expand σ) as [|e0 stk0]; [done|].
  destruct (iteration limit σ) as [[σ'|r]|] eqn:Hit; [| |done].
  - apply IH. by eapply inv_actions_turn.
  - intros [= ->]. by eapply iteration_return_valid.
Qed.

(** X7. Path validity.  The actions that [DepthLimitedDFS.search] returns
    can be taken one after the other from the start state, each among the
    successors of the state reached so far, and the state they end in
    passes [goal_test]. *)
Theorem search_solution_reaches_goal (state : State) (limit : Z) sol n :
  search state limit = Some (Ok (Some sol, n)) →
  ∃ final, replays state sol final ∧ goal_test final = Ok true.
Proof. apply search_loop_valid, inv_actions_initial. Qed.

(** *** Exceptions *)

Lemma iteration_raises_from_problem limit start σ e0 stk0 x :
  inv start σ → states_to_expand σ = e0 :: stk0 →
  iteration limit σ = Raise x →
  ∃ s, goal_test s = Raise x ∨ successor s = Raise x.
Proof.
  intros Hinv Hne. unfold iteration.
  destruct (pop_nonempty (states_to_expand σ)) as (e & stk & Hpop);
    [by rewrite Hne|].
  rewrite Hpop, Ok_bind. apply pop_Ok in Hpop.
  destruct (ignored limit e (set_stack stk σ)) eqn:Hig; [done|].
  apply orb_false_elim in Hig as [Hfresh%bool_decide_eq_false _].
  simpl in Hfresh.
  destruct (accept_spec _ _ _ _ Hinv Hpop Hfresh) as (σ1 & -> & _).
  rewrite Ok_bind.
  destruct (goal_test e.1.1) as [[]|] eqn:Hg; simpl; [done| |].
  - destruct (successor e.1.1) as [children|] eqn:Hs; simpl; [done|].
    intros [= <-]. eauto.
  - intros [= <-]. eauto.
Qed.

Lemma search_loop_raises_from_problem limit start fuel σ x :
  inv start σ → search_loop fuel limit σ = Some (Raise x) →
  ∃ s, goal_test s = Raise x ∨ successor s = Raise x.
Proof.
  revert σ. induction fuel as [|fuel IH]; intros σ Hinv; simpl; [done|].
  destruct (states_to_expand σ) as [|e0 stk0] eqn:Hstk; [done|].
  destruct (iteration limit σ) as [[σ'|r]|] eqn:Hit; [|done|].
  - apply IH. by eapply inv_turn.
  - intros [= <-]. by eapply iteration_raises_from_problem.
Qed.

(** A turn of the loop on locals that satisfy the invariant: the pop
    succeeds, lines 60-67 succeed when the entry is taken, and an
    exception can only be the one of the goal test or of the expansion of
    the popped state. *)
Lemma turn_never_fails limit start σ :
  inv start σ → states_to_expand σ ≠ [] →
  ∃ e stk, pop (states_to_expand σ) = Ok (e, stk)
    ∧ (ignored limit e (set_stack stk σ) = false →
         ∃ σ', accept e (set_stack stk σ) = Ok σ')
    ∧ ∀ x, iteration limit σ = Raise x →
        ignored limit e (set_stack stk σ) = false
        ∧ (goal_test e.1.1 = Raise x
           ∨ (goal_test e.1.1 = Ok false ∧ successor e.1.1 = Raise x)).
Proof.
  intros Hinv Hne.
  destruct (pop_nonempty (states_to_expand σ) Hne) as (e & stk & Hpop).
  exists e, stk. split; [done|].
  pose proof (pop_Ok _ _ _ Hpop) as Hstk.
  unfold iteration. rewrite Hpop, Ok_bind.
  destruct (ignored limit e (set_stack stk σ)) eqn:Hig; [done|].
  pose proof Hig as [Hfresh%bool_decide_eq_false _]%orb_false_elim.
  simpl in Hfresh.
  destruct (accept_spec _ _ _ _ Hinv Hstk Hfresh) as (σ1 & -> & _).
  split; [eauto|]. intros x. rewrite Ok_bind.
  destruct (goal_test e.1.1) as [[]|] eqn:Hg; simpl; [done| |].
  - destruct (successor e.1.1) as [children|] eqn:Hs; simpl; [done|].
    intros [= <-]. eauto.
  - intros [= <-]. eauto.
Qed.

Lemma search_loop_raise_point limit start fuel σ x :
  reachable limit start σ → search_loop fuel limit σ = Some (Raise x) →
  ∃ σ' e stk,
    reachable limit start σ'
    ∧ pop (states_to_expand σ') = Ok (e, stk)
    ∧ ignored limit e (set_stack stk σ') = false
    ∧ (goal_test e.1.1 = Raise x
       ∨ (goal_test e.1.1 = Ok false ∧ successor e.1.1 = Raise x)).
Proof.
  revert σ. induction fuel as [|fuel IH]; intros σ Hreach; simpl; [done|].
  destruct (states_to_expand σ) as [|e0 stk0] eqn:Hstk; [done|].
  destruct (iteration limit σ) as [[σ'|r]|y] eqn:Hit; [|done|].
  - apply IH. by apply (reachable_turn limit start σ).
  - intros [= ->].
    destruct (turn_never_fails limit start σ) as (e & stk & Hpop & _ & Hx);
      [by apply (reachable_inv limit)|by rewrite Hstk|].
    destruct (Hx x Hit) as [Hig Hcall]. by exists σ, e, stk.
Qed.

(** X8. The engine raises nothing of its own.  At every head of the loop
    that the search reaches with a stack that is not empty, the pop
    succeeds, and when the popped entry is taken, so do the cleaning of
    path and solution with its pops and its removals from the visited set
    (lines 60-67); the turn raises only what [goal_test] raises on the
    popped state, or what [successor] raises on it after [goal_test]
    answered [False].  So an exception that comes out of
    [DepthLimitedDFS.search] was raised by one of these two calls, on a
    state that the search popped and took. *)
Theorem search_raises_only_from_problem (state : State) (limit : Z) :
  (∀ σ, reachable limit state σ → states_to_expand σ ≠ [] →
     ∃ e stk, pop (states_to_expand σ) = Ok (e, stk)
       ∧ (ignored limit e (set_stack stk σ) = false →
            ∃ σ', accept e (set_stack stk σ) = Ok σ')
       ∧ ∀ x, iteration limit σ = Raise x →
           ignored limit e (set_stack stk σ) = false
           ∧ (goal_test e.1.1 = Raise x
              ∨ (goal_test e.1.1 = Ok false ∧ successor e.1.1 = Raise x)))
  ∧ ∀ x, search state limit = Some (Raise x) →
      ∃ σ e stk,
        reachable limit state σ
        ∧ pop (states_to_expand σ) = Ok (e, stk)
        ∧ ignored limit e (set_stack stk σ) = false
        ∧ (goal_test e.1.1 = Raise x
           ∨ (goal_test e.1.1 = Ok false ∧ successor e.1.1 = Raise x)).
Proof.
  split.
  - intros σ Hreach%reachable_inv. by apply (turn_never_fails limit state).
  - intros x. apply search_loop_raise_point, reachable_initial.
Qed.

(** *** Edge cases *)

Lemma goal_at_start_run (state : State) (limit : Z) :
  (0 ≤ limit)%Z → goal_test state = Ok true →
  search state limit = Some (Ok (Some [], 1)).
Proof.
  intros Hl Hg. unfold search, search_fuel. simpl.
  unfold iteration, ignored. simpl.
  change (Z.of_nat 0) with 0%Z.
  replace (limit <? 0)%Z with false by lia.
  rewrite bool_decide_eq_false_2 by set_solver. simpl.
  by rewrite Hg.
Qed.

Lemma dead_end_run (state : State) (limit : Z) :
  (0 ≤ limit)%Z → goal_test state = Ok false → successor state = Ok [] →
  search state limit = Some (Ok (None, 1)).
Proof.
  intros Hl Hg Hs. unfold search, search_fuel, levels.
  replace (Z.to_nat (limit - Z.of_nat 0 + 1)) with (S (Z.to_nat limit)) by lia.
  simpl. rewrite Hs. simpl.
  unfold iteration, ignored. simpl.
  change (Z.of_nat 0) with 0%Z.
  replace (limit <? 0)%Z with false by lia.
  rewrite bool_decide_eq_false_2 by set_solver. simpl.
  by rewrite Hg, Ok_bind, Hs.
Qed.

(** X9. A start state that is a goal is found at once, with the empty
    list of actions and one expansion, under every limit that is not
    negative. *)
Theorem search_goal_at_start (state : State) (limit : Z) :
  (0 ≤ limit)%Z → goal_test state = Ok true →
  search state limit = Some (Ok (Some [], 1)).
Proof. apply goal_at_start_run. Qed.

(** X10. A dead end: from a start state that is no goal and has no
    successor the search expands that one state and returns [None], under
    every limit that is not negative. *)
Theorem search_dead_end (state : State) (limit : Z) :
  (0 ≤ limit)%Z → goal_test state = Ok false → successor state = Ok [] →
  search state limit = Some (Ok (None, 1)).
Proof. apply dead_end_run. Qed.

(** *** The driver *)

Lemma deepen_terminates fuel (state : State) total last limit :
  Z.to_nat (IterativeDeepening.max_limit - limit + 1) < fuel →
  is_Some (IterativeDeepening.deepen fuel state total last limit).
Proof.
  revert total last limit.
  induction fuel as [|fuel IH]; intros total last limit Hf; [lia|]. simpl.
  destruct (limit <=? IterativeDeepening.max_limit)%Z eqn:Hl; [|done].
  destruct (_ <=? Z.of_nat total)%Z; [done|].
  destruct (search_terminates state limit) as [r ->].
  destruct r as [[solution n]|]; [|done].
  destruct (Z.of_nat n =? last)%Z; [done|].
  destruct (successor state); [|done].
  destruct solution; [done|]. apply IH. lia.
Qed.

Lemma deepen_sound fuel (state : State) total last limit sol n :
  IterativeDeepening.deepen fuel state total last limit
  = Some (Ok (Some sol, n)) →
  ∃ limit' k, (limit ≤ limit' ≤ IterativeDeepening.max_limit)%Z
              ∧ search state limit' = Some (Ok (Some sol, k))
              ∧ total + k ≤ n.
Proof.
  revert total last limit.
  induction fuel as [|fuel IH]; intros total last limit; simpl; [done|].
  destruct (limit <=? IterativeDeepening.max_limit)%Z eqn:Hl; [|done].
  destruct (_ <=? Z.of_nat total)%Z; [done|].
  destruct (search state limit) as [[[solution k]|]|] eqn:Hs; [|done..].
  destruct (Z.of_nat k =? last)%Z; [done|].
  destruct (successor state); [|done].
  destruct solution as [sol'|].
  - intros [= -> <-]. exists limit, k. repeat split; [lia..|done|lia].
  - intros (limit' & k' & Hl' & Hs' & Hn)%IH.
    exists limit', k'. repeat split; [lia..|done|lia].
Qed.

Lemma deepen_raises_from_problem fuel (state : State) total last limit x :
  IterativeDeepening.deepen fuel state total last limit = Some (Raise x) →
  ∃ s, goal_test s = Raise x ∨ successor s = Raise x.
Proof.
  revert total last limit.
  induction fuel as [|fuel IH]; intros total last limit; simpl; [done|].
  destruct (limit <=? IterativeDeepening.max_limit)%Z eqn:Hl; [|done].
  destruct (_ <=? Z.of_nat total)%Z; [done|].
  destruct (search state limit) as [[[solution k]|y]|] eqn:Hs; [| |done].
  - destruct (Z.of_nat k =? last)%Z; [done|].
    destruct (successor state) as [l|y] eqn:Hsucc.
    + destruct solution as [sol'|]; [done|]. apply IH.
    + intros [= <-]. eauto.
  - intros [= <-].
    eapply search_loop_raises_from_problem;
      [apply (inv_initial state)|exact Hs].
Qed.

(** X11. [IterativeDeepening.search] always comes back, after at most
    four depth-limited searches.  A solution it returns has at most three
    actions (the hard-wired [max_limit]); it is the answer of the
    depth-limited search under some limit from 0 to 3; and its actions lead
    from the start state to a state that passes [goal_test]. *)
Theorem deepening_solution_is_sound (state : State) :
  is_Some (IterativeDeepening.search state)
  ∧ ∀ sol n, IterativeDeepening.search state = Some (Ok (Some sol, n)) →
      length sol ≤ 3
      ∧ (∃ limit k, (0 ≤ limit ≤ 3)%Z
                    ∧ search state limit = Some (Ok (Some sol, k)) ∧ k ≤ n)
      ∧ ∃ final, replays state sol final ∧ goal_test final = Ok true.
Proof.
  split; [apply deepen_terminates; by vm_compute|].
  intros sol n (limit & k & Hl & Hs & Hn)%deepen_sound.
  unfold IterativeDeepening.max_limit in Hl. split; [|split].
  - pose proof (search_loop_depth_bound _ _ _ _ _ Hs). lia.
  - exists limit, k. repeat split; [lia..|done|lia].
  - eapply search_loop_valid; [apply (inv_actions_initial state)|exact Hs].
Qed.

(** X12. An exception that comes out of [IterativeDeepening.search] was
    raised by a call of [goal_test] or of [successor]. *)
Theorem deepening_raises_only_from_problem (state : State) x :
  IterativeDeepening.search state = Some (Raise x) →
  ∃ s, goal_test s = Raise x ∨ successor s = Raise x.
Proof. apply deepen_raises_from_problem. Qed.

(** X13. On a start state that is a goal the driver still asks for the
    successors of the start state (line 175) before it returns: it answers
    with the empty list of actions and one expansion when that call
    succeeds, and with the exception of that call when it raises. *)
Theorem deepening_goal_at_start (state : State) :
  goal_test state = Ok true →
  IterativeDeepening.search state
  = match successor state with
    | Ok _ => Some (Ok (Some [], 1))
    | Raise x => Some (Raise x)
    end.
Proof.
  intros Hg. unfold IterativeDeepening.search. simpl.
  rewrite (goal_at_start_run state 0) by done. simpl.
  by destruct (successor state).
Qed.

(** X14. On a dead end the driver stops by its stagnation test: the
    searches with limits 0 and 1 both expand the start state only, and the
    driver returns [None] with the single expansion of the first. *)
Theorem deepening_dead_end (state : State) :
  goal_test state = Ok false → successor state = Ok [] →
  IterativeDeepening.search state = Some (Ok (None, 1)).
Proof.
  intros Hg Hs. unfold IterativeDeepening.search. simpl.
  rewrite (dead_end_run state 0) by done. simpl. rewrite Hs.
  by rewrite (dead_end_run state (0 + 1)) by done.
Qed.

End engine.

Import Examples.

(** The two swaps found under limit 2 lead from [two_swaps] to a goal. *)
Lemma search_solution_reaches_goal_witness :
  ∃ final, replays (P:=dfs_puzzle) two_swaps [Some swap_bottom; Some swap_top] final
           ∧ goal_test (Problem:=dfs_puzzle) final = Ok true.
Proof.
  apply (search_solution_reaches_goal (P:=dfs_puzzle) two_swaps 2 _ 7).
  by vm_compute.
Defined.

(** An exception from below the root.  On [trap] from [0] under limit 1
    the first turn takes the root and pushes [1]; the second takes [1],
    whose successors raise [KeyError]: the exception of the problem, not
    one of [visited_states.remove]. *)
Lemma search_raises_only_from_problem_witness :
  search (P:=trap) 0 1 = Some (Raise KeyError)
  ∧ (∃ σ', accept (Action:=nat) (1, 1, Some 1)
                  (set_stack [] (dfs_after (P:=trap) 1 1 0)) = Ok σ')
  ∧ ∃ σ e stk,
      reachable (P:=trap) 1 0 σ
      ∧ pop (states_to_expand σ) = Ok (e, stk)
      ∧ ignored 1 e (set_stack stk σ) = false
      ∧ (goal_test (Problem:=trap) e.1.1 = Raise KeyError
         ∨ (goal_test (Problem:=trap) e.1.1 = Ok false
            ∧ successor (Problem:=trap) e.1.1 = Raise KeyError)).
Proof.
  destruct (search_raises_only_from_problem (P:=trap) 0 1) as [Hturn Hraise].
  split; [vm_compute; reflexivity|]. split.
  - destruct (Hturn (dfs_after (P:=trap) 1 1 0)) as (e & stk & Hpop & Hacc & _).
    + apply (reachable_turn (P:=trap) 1 0 (initial 0));
        [apply reachable_initial|vm_compute; reflexivity].
    + discriminate.
    + injection Hpop as <- <-. apply Hacc. vm_compute; reflexivity.
  - apply Hraise. vm_compute; reflexivity.
Defined.

(** [solved] under limit 0. *)
Lemma search_goal_at_start_witness :
  search (P:=dfs_puzzle) solved 0 = Some (Ok (Some [], 1)).
Proof.
  apply (search_goal_at_start (P:=dfs_puzzle) solved 0); [lia|by vm_compute].
Defined.

(** The problem without successors, under limit 3. *)
Lemma search_dead_end_witness :
  search (P:=stuck) 0 3 = Some (Ok (None, 1)).
Proof. apply (search_dead_end (P:=stuck) 0 3); [lia|done..]. Defined.

(** The driver on [one_swap]: found under limit 1. *)
Lemma deepening_solution_is_sound_witness :
  IterativeDeepening.search (P:=dfs_puzzle) one_swap
  = Some (Ok (Some [Some swap_top], 8))
  ∧ length [Some swap_top] ≤ 3.
Proof.
  assert (IterativeDeepening.search (P:=dfs_puzzle) one_swap
          = Some (Ok (Some [Some swap_top], 8))) as Hrun by (by vm_compute).
  split; [exact Hrun|].
  exact (proj1 (proj2 (deepening_solution_is_sound (P:=dfs_puzzle) one_swap)
                  _ _ Hrun)).
Defined.

(** The driver on a start state that is not a grid. *)
Lemma deepening_raises_only_from_problem_witness :
  ∃ s, goal_test (Problem:=dfs_puzzle) s = Raise IndexError
       ∨ successor (Problem:=dfs_puzzle) s = Raise IndexError.
Proof.
  apply (deepening_raises_only_from_problem (P:=dfs_puzzle) [] IndexError).
  by vm_compute.
Defined.

(** The driver on [solved]. *)
Lemma deepening_goal_at_start_witness :
  IterativeDeepening.search (P:=dfs_puzzle) solved = Some (Ok (Some [], 1)).
Proof.
  rewrite (deepening_goal_at_start (P:=dfs_puzzle) solved) by (by vm_compute).
  by vm_compute.
Defined.

(** The driver on the problem without successors. *)
Lemma deepening_dead_end_witness :
  IterativeDeepening.search (P:=stuck) 0 = Some (Ok (None, 1)).
Proof. by apply (deepening_dead_end (P:=stuck) 0). Defined.

End DFSExtras.

(** ** More on A* *)
Module AstarExtras.
Import Informed Informed.Astar AstarFacts.

Section engine.
Context {State Action : Type} `{Countable State} `{EqDecision Action}.
Context {P : Problem State Action}.
Implicit Types (σ : @locals State Action _ _) (e : @entry State Action).
Implicit Types (tr : list State) (q : list (@entry State Action)).
Implicit Types (E : list (Z * option Action)).

(** *** Parents *)

(** The state [s] was generated from the [p]-th expanded state, by the
    action [a]. *)
Definition generated_from tr (p : Z) (a : option Action) (s : State) (bound : nat)
  : Prop :=
  ∃ pn sp l act act_cost heur_cost,
    p = Z.of_nat pn ∧ pn < bound ∧ tr !! pn = Some sp
    ∧ successor sp = Ok l ∧ Tuple4 act s act_cost heur_cost ∈ l
    ∧ a = Some act.

(** The [i]-th record of [expanded_states] belongs to the [i]-th expanded
    state: the start state with parent [-1], or a state generated from an
    earlier one. *)
Definition record_ok (start : State) tr (i : nat) (r : Z * option Action) : Prop :=
  ∃ s, tr !! i = Some s
       ∧ ((r.1 = (-1)%Z ∧ s = start) ∨ generated_from tr r.1 r.2 s i).

Definition entry_ok (start : State) tr e : Prop :=
  (e.1.2 = (-1)%Z ∧ entry_state e = start)
  ∨ generated_from tr e.1.2 e.2 (entry_state e) (length tr).

Definition parents_ok (start : State) tr σ : Prop :=
  length (expanded_states σ) = length tr
  ∧ num_expanded_states σ = length tr
  ∧ (∀ i r, expanded_states σ !! i = Some r → record_ok start tr i r)
  ∧ Forall (entry_ok start tr) (states_to_expand σ).

Lemma generated_from_snoc tr p a s bound x :
  bound ≤ length tr →
  generated_from tr p a s bound → generated_from (tr ++ [x]) p a s bound.
Proof.
  intros Hb (pn & sp & l & act & ac & hc & -> & Hlt & Hsp & Hs & Hin & ->).
  exists pn, sp, l, act, ac, hc. repeat split; [done| |done..].
  by apply lookup_app_l_Some.
Qed.

Lemma record_ok_snoc start tr i r x :
  i < length tr → record_ok start tr i r → record_ok start (tr ++ [x]) i r.
Proof.
  intros Hi (s & Hs & Hr). exists s. split; [by apply lookup_app_l_Some|].
  destruct Hr as [?|Hg]; [by left|right].
  apply generated_from_snoc; [lia|done].
Qed.

Lemma entry_ok_snoc start tr e x :
  entry_ok start tr e → entry_ok start (tr ++ [x]) e.
Proof.
  intros [?|(pn & sp & l & act & ac & hc & Hp & Hlt & Hsp & Hs & Hin & Ha)];
    [by left|right].
  exists pn, sp, l, act, ac, hc. rewrite length_app. simpl.
  repeat split; [done|lia| |done..]. by apply lookup_app_l_Some.
Qed.

Lemma parents_ok_initial start : parents_ok start [] (initial start).
Proof.
  repeat split; [by intros [|i] ?|]. repeat constructor.
Qed.

(** The record a turn appends for the entry it expands. *)
Lemma records_snoc start tr σ e :
  parents_ok start tr σ → entry_ok start tr e →
  ∀ i r, (expanded_states σ ++ [(e.1.2, e.2)]) !! i = Some r →
         record_ok start (tr ++ [entry_state e]) i r.
Proof.
  intros (Hlen & _ & Hrec & _) He i r.
  intros [[Hi Hr]|[Hi <-]]%lookup_snoc_Some.
  - apply record_ok_snoc; [lia|]. by apply Hrec.
  - exists (entry_state e). rewrite Hi, Hlen. split.
    + rewrite lookup_app_r by lia. by rewrite Nat.sub_diag.
    + destruct He as [?|Hg]; [by left|right]. simpl.
      by apply generated_from_snoc.
Qed.

Lemma push_children_Forall (Q : entry → Prop) (n : nat) items q q' :
  Forall Q q →
  (∀ a c act_cost heur_cost f,
     Tuple4 a c act_cost heur_cost ∈ items →
     Q (f, 2%Z, c, (Z.of_nat n - 1)%Z, Some a)) →
  for_each items q (push_child n) = Ok q' → Forall Q q'.
Proof.
  revert q. induction items as [|it items IH]; intros q Hq Hnew; simpl.
  { by intros [= <-]. }
  destruct (push_child n it q) as [q1|] eqn:Hpush; simpl; [|done].
  apply IH; [|intros; eapply Hnew; by right].
  destruct it as [a s|a s c h]; [done|].
  rewrite push_child_constant_cost in Hpush.
  destruct (heuristicfunction s) as [h'|]; simpl in Hpush; [|done].
  eapply heappush_Forall; [done| |exact Hpush]. eapply Hnew. by left.
Qed.

Lemma parents_ok_turn start tr σ σ' :
  parents_ok start tr σ → iteration σ = Ok (Continue σ') →
  ∃ tr', parents_ok start tr' σ'.
Proof.
  intros Hok. pose proof Hok as (Hlen & Hnum & Hrec & Hq). unfold iteration.
  destruct (heappop (states_to_expand σ)) as [[e q]|] eqn:Hpop; simpl; [|done].
  destruct (heappop_Forall _ _ _ _ Hq Hpop) as [He Hq'].
  pose proof (records_snoc _ _ _ _ Hok He) as Hrec'.
  destruct e as [[[[f g] s] p] a]. unfold entry_state in *. simpl in *.
  case_decide.
  { intros [= <-]. exists tr. by repeat split. }
  destruct (goal_test s) as [[]|]; simpl; [done| |done].
  destruct (successor s) as [items|] eqn:Hs; simpl; [|done].
  destruct (for_each items q _) as [q1|] eqn:Hpush; simpl; [|done].
  intros [= <-]. exists (tr ++ [s]). unfold parents_ok. simpl.
  repeat split; [rewrite !length_app; simpl; lia..|done|].
  eapply push_children_Forall; [|intros a' c ac hc f' Hin|exact Hpush].
  - eapply Forall_impl; [exact Hq'|]. intros e'. apply entry_ok_snoc.
  - right. exists (length tr), s, items, a', ac, hc.
    unfold entry_state. simpl. rewrite length_app. simpl.
    repeat split; [lia|lia| |done..].
    rewrite lookup_app_r by lia. by rewrite Nat.sub_diag.
Qed.

Lemma replays_snoc (s0 : State) acts sp a c l act_cost heur_cost :
  replays s0 acts sp → successor sp = Ok l →
  Tuple4 a c act_cost heur_cost ∈ l →
  replays s0 (acts ++ [Some a]) c.
Proof.
  induction 1 as [s|s a' c' acts f l' ac' hc' Hs Hin _ IH]; intros Hsp Hl; simpl.
  - econstructor; [done..|constructor].
  - econstructor; [done..|]. by apply IH.
Qed.

(** Walking the parents from the [i]-th record collects, last action
    first, actions that lead from the start state to the [i]-th expanded
    state; no lookup fails and [i + 1] turns are enough. *)
Lemma backtrack_replays start tr E :
  length E = length tr →
  (∀ i r, E !! i = Some r → record_ok start tr i r) →
  ∀ i s r fuel acc,
    tr !! i = Some s → E !! i = Some r → i < fuel →
    ∃ acts, backtrack fuel E r.1 r.2 acc = Some (Ok (acc ++ acts))
            ∧ replays start (reverse acts) s.
Proof.
  intros Hlen Hrec i. induction (lt_wf i) as [i _ IH].
  intros s r fuel acc Hs Hr Hf.
  destruct fuel as [|fuel]; [lia|]. simpl.
  destruct (Hrec i r Hr) as (s' & Hs' & Hcase). simplify_eq.
  destruct Hcase as [[Hp ->]|(pn & sp & l & act & ac & hc & Hp & Hlt & Hsp & Hsucc & Hin & Ha)].
  - rewrite Hp. rewrite decide_False by (by intros []).
    exists []. rewrite app_nil_r. split; [done|constructor].
  - rewrite Hp. rewrite decide_True by lia.
    destruct (lookup_lt_is_Some_2 E pn) as [rp Hrp];
      [apply lookup_lt_Some in Hsp; lia|].
    rewrite PuzzleFacts.getitem_lookup by lia. rewrite Nat2Z.id, Hrp.
    destruct rp as [pp ap].
    destruct (IH pn Hlt sp (pp, ap) fuel (acc ++ [r.2]) Hsp Hrp)
      as (acts & Hb & Hre); [lia|].
    simpl in Hb. rewrite Hb.
    exists (r.2 :: acts). split; [by rewrite <- app_assoc|].
    rewrite reverse_cons, Ha. by eapply replays_snoc.
Qed.

Lemma goal_turn_backtracks start tr σ σ' path_cost parent action :
  parents_ok start tr σ →
  iteration σ = Ok (Goal σ' path_cost parent action) →
  (∀ i r, expanded_states σ' !! i = Some r →
          r.1 = (-1)%Z ∨ (0 ≤ r.1 < Z.of_nat i)%Z)
  ∧ ∃ acts final,
      backtrack (S (length (expanded_states σ'))) (expanded_states σ')
                parent action [] = Some (Ok acts)
      ∧ replays start (reverse acts) final
      ∧ goal_test final = Ok true.
Proof.
  intros Hok. pose proof Hok as (Hlen & Hnum & Hrec & Hq). unfold iteration.
  destruct (heappop (states_to_expand σ)) as [[e q]|] eqn:Hpop; simpl; [|done].
  destruct (heappop_Forall _ _ _ _ Hq Hpop) as [He Hq'].
  pose proof (records_snoc _ _ _ _ Hok He) as Hrec'.
  destruct e as [[[[f g] s] p] a]. unfold entry_state in *. simpl in *.
  case_decide; [done|].
  destruct (goal_test s) as [[]|] eqn:Hg; simpl; [| |done].
  2:{ destruct (successor s); simpl; [|done]. by destruct (for_each _ _ _). }
  intros [= <- <- <- <-]. simpl. split.
  - intros i r Hr. destruct (Hrec' i r Hr) as (s' & _ & [[? _]|Hgen]); [by left|].
    destruct Hgen as (pn & _ & _ & _ & _ & _ & -> & Hlt & _). right. lia.
  - destruct (backtrack_replays start (tr ++ [s])
                (expanded_states σ ++ [(p, a)])) with
      (i := length tr) (s := s) (r := (p, a))
      (fuel := S (length (expanded_states σ ++ [(p, a)]))) (acc := @nil (option Action))
      as (acts & Hb & Hre).
    + rewrite !length_app. simpl. lia.
    + done.
    + rewrite lookup_app_r by lia. by rewrite Nat.sub_diag.
    + rewrite lookup_app_r by lia. by rewrite Hlen, Nat.sub_diag.
    + rewrite length_app. simpl. lia.
    + exists acts, s. by repeat split.
Qed.

Lemma astar_loop_valid start fuel tr σ sol cost n :
  parents_ok start tr σ →
  search_loop fuel σ = Some (Ok (Some sol, cost, n)) →
  ∃ final, replays start sol final ∧ goal_test final = Ok true.
Proof.
  revert tr σ. induction fuel as [|fuel IH]; intros tr σ Hok; [done|].
  cbn [search_loop].
  destruct (states_to_expand σ) as [|e0 q0] eqn:Hstk; [done|].
  destruct (iteration σ) as [[σ'|σ' path_cost parent action]|] eqn:Hit; [| |done].
  - destruct (parents_ok_turn _ _ _ _ Hok Hit) as [tr' Hok']. by eapply IH.
  - destruct (goal_turn_backtracks _ _ _ _ _ _ _ Hok Hit)
      as (_ & acts & final & -> & Hre & Hg).
    intros [= <- <- <-]. eauto.
Qed.

(** X15. Path validity.  The actions that [Astar.search] returns can be
    taken one after the other from the start state, each among the
    successors of the state reached so far, and the state they end in
    passes [goal_test]. *)
Theorem astar_solution_reaches_goal (state : State) (fuel : nat) sol cost n :
  search fuel state = Some (Ok (Some sol, cost, n)) →
  ∃ final, replays state sol final ∧ goal_test final = Ok true.
Proof. apply (astar_loop_valid state fuel []), parents_ok_initial. Qed.

Lemma run_parents_ok start tr σ :
  run start tr σ → ∃ tr', parents_ok start tr' σ.
Proof.
  induction 1 as [|tr σ e q σ' _ [tr' Hok] _ Hit].
  - exists []. apply parents_ok_initial.
  - by eapply parents_ok_turn.
Qed.

(** X16. Parent pointers.  When a turn of the loop finds a goal, every
    record of [expanded_states] names as parent either [-1] or the index of
    an earlier record; the walk back along the parents (lines 97-99) then
    ends without a failed lookup, and the actions it collects, reversed,
    lead from the start state to the goal. *)
Theorem parents_precede_children (start : State) tr σ σ' path_cost parent action :
  run start tr σ →
  iteration σ = Ok (Goal σ' path_cost parent action) →
  (∀ i r, expanded_states σ' !! i = Some r →
          r.1 = (-1)%Z ∨ (0 ≤ r.1 < Z.of_nat i)%Z)
  ∧ ∃ acts final,
      backtrack (S (length (expanded_states σ'))) (expanded_states σ')
                parent action [] = Some (Ok acts)
      ∧ replays start (reverse acts) final
      ∧ goal_test final = Ok true.
Proof.
  intros [tr' Hok]%run_parents_ok Hit. by eapply goal_turn_backtracks.
Qed.

(** *** Edge cases *)

(** X17. A dead end: from a start state that is no goal and has no
    successor the frontier empties after one expansion, and the search
    returns [None] with cost [math.inf]. *)
Theorem astar_dead_end (state : State) (fuel : nat) :
  goal_test state = Ok false → successor state = Ok [] →
  search (S (S fuel)) state = Some (Ok (None, Inf, 1)).
Proof.
  intros Hg Hs. unfold search. simpl. unfold iteration. simpl.
  rewrite decide_False by set_solver. by rewrite Hg, Ok_bind, Hs.
Qed.

(** *** What the loop reports *)

(** X18. The cost in the answer does not depend on the length of the
    solution: it is 0 when the start state is a goal and 2 for every other
    solution, since each child is pushed with path cost [1 + 1]
    (lines 104-107). *)
Theorem astar_cost_ignores_path_length (state : State) fuel sol cost n :
  search fuel state = Some (Ok (Some sol, cost, n)) →
  (cost = Fin 0 ∧ sol = []) ∨ (cost = Fin 2 ∧ sol ≠ []).
Proof. apply AstarFacts.reported_cost_is_0_or_2. Qed.

(** X19. A [successor] whose first item is an (action, state) pair makes
    the search raise [ValueError] at the first expansion of a start state
    that is no goal: the loop header of line 103 unpacks four names. *)
Theorem astar_rejects_pairs (state : State) (fuel : nat) a s items :
  goal_test state = Ok false →
  successor state = Ok (Tuple2 a s :: items) →
  search (S fuel) state = Some (Raise ValueError).
Proof. apply AstarFacts.search_pairs_do_not_unpack. Qed.

End engine.

Import Examples.

(** Three steps of the counter problem. *)
Lemma astar_solution_reaches_goal_witness :
  ∃ final, replays (P:=counter 3) 0 [Some 1; Some 1; Some 1] final
           ∧ goal_test (Problem:=counter 3) final = Ok true.
Proof.
  apply (astar_solution_reaches_goal (P:=counter 3) 0 5 _ (Fin 2) 4).
  by vm_compute.
Defined.

(** A walk back of two steps.  On [shuttle 2] from [0] the loop expands
    [0], drops a second entry for [0], expands [1], drops a third entry
    for [0], and then pops the goal [2] with parent 1: the records are
    (-1, None), (0, 1), (1, 1), and the walk goes from record 1 to record 0
    to -1. *)
Lemma parents_precede_children_witness :
  iteration (P:=shuttle 2) (astar_after (P:=shuttle 2) 4 0)
  = Ok (Goal (add_current 2 1%Z (Some 1)
                (set_queue [] (astar_after (P:=shuttle 2) 4 0)))
             2%Z 1%Z (Some 1))
  ∧ (∀ i r, [((-1)%Z, None); (0%Z, Some 1); (1%Z, Some 1)] !! i = Some r →
            r.1 = (-1)%Z ∨ (0 ≤ r.1 < Z.of_nat i)%Z)
  ∧ ∃ acts final,
      backtrack (Action:=nat) 4
                [((-1)%Z, None); (0%Z, Some 1); (1%Z, Some 1)]
                1 (Some 1) [] = Some (Ok acts)
      ∧ replays (P:=shuttle 2) 0 (reverse acts) final
      ∧ goal_test (Problem:=shuttle 2) final = Ok true.
Proof.
  assert (run (P:=shuttle 2) 0 [0; 1] (astar_after (P:=shuttle 2) 4 0))
    as Hrun.
  { apply (run_turn (P:=shuttle 2) 0 [0; 1] (astar_after (P:=shuttle 2) 3 0)
             (Fin 2, 2%Z, 0, 1%Z, Some 0) [(Fin 2, 2%Z, 2, 1%Z, Some 1)]);
      [|vm_compute; reflexivity..].
    apply (run_turn (P:=shuttle 2) 0 [0] (astar_after (P:=shuttle 2) 2 0)
             (Fin 2, 2%Z, 1, 0%Z, Some 1) []);
      [|vm_compute; reflexivity..].
    apply (run_turn (P:=shuttle 2) 0 [0] (astar_after (P:=shuttle 2) 1 0)
             (Fin 2, 2%Z, 0, 0%Z, Some 0) [(Fin 2, 2%Z, 1, 0%Z, Some 1)]);
      [|vm_compute; reflexivity..].
    apply (run_turn (P:=shuttle 2) 0 [] (initial 0)
             (Inf, 0%Z, 0, (-1)%Z, None) []);
      [apply run_initial|vm_compute; reflexivity..]. }
  assert (iteration (P:=shuttle 2) (astar_after (P:=shuttle 2) 4 0)
          = Ok (Goal (add_current 2 1%Z (Some 1)
                        (set_queue [] (astar_after (P:=shuttle 2) 4 0)))
                     2%Z 1%Z (Some 1))) as Hgoal
    by (vm_compute; reflexivity).
  split; [exact Hgoal|].
  exact (parents_precede_children (P:=shuttle 2) 0 [0; 1] _ _ _ _ _
           Hrun Hgoal).
Defined.

(** The problem without successors. *)
Lemma astar_dead_end_witness :
  search (P:=astar_stuck) 2 0 = Some (Ok (None, Inf, 1)).
Proof. by apply (astar_dead_end (P:=astar_stuck) 0 0). Defined.

(** The three-step solution of the counter problem costs 2. *)
Lemma astar_cost_ignores_path_length_witness :
  (Fin 2 = Fin 0 ∧ [Some 1; Some 1; Some 1] = @nil (option nat))
  ∨ (Fin 2 = Fin 2 ∧ [Some 1; Some 1; Some 1] ≠ @nil (option nat)).
Proof.
  apply (astar_cost_ignores_path_length (P:=counter 3) 0 5 _ _ 4). by vm_compute.
Defined.

(** A [successor] that answers with pairs. *)
Lemma astar_rejects_pairs_witness :
  search (P:=counter_pairs) 1 0 = Some (Raise ValueError).
Proof.
  by apply (astar_rejects_pairs (P:=counter_pairs) 0 0 1 1 []).
Defined.

End AstarExtras.

(** ** More on the puzzle of the informed program *)
Module AstarPuzzleExtras.
Import Informed Informed.Astar Informed.FourDominoes.
Import PuzzleFacts PuzzleExtras AstarPuzzleFacts.

(** *** The heuristic *)

(** The sum of the weights of a list. *)
Definition total {A} (w : A → Z) (l : list A) : Z :=
  foldr (λ x s, (w x + s)%Z) 0%Z l.

Lemma for_each_total {A} (l : list A) (w : A → Z)
    (body : A → Z → result Z) (acc : Z) :
  (∀ x acc, x ∈ l → body x acc = Ok (acc + w x)%Z) →
  for_each l acc body = Ok (acc + total w l)%Z.
Proof.
  revert acc. induction l as [|x l IH]; intros acc Hbody; simpl.
  - f_equal. lia.
  - rewrite Hbody by left. simpl.
    rewrite IH by (intros; apply Hbody; by right). f_equal. lia.
Qed.

Lemma total_bounds {A} (w : A → Z) (l : list A) (b : Z) :
  (∀ x, x ∈ l → (0 ≤ w x ≤ b)%Z) →
  (0 ≤ total w l ≤ b * Z.of_nat (length l))%Z.
Proof.
  induction l as [|x l IH]; intros Hw; simpl; [lia|].
  pose proof (Hw x ltac:(left)).
  pose proof (IH (λ y Hy, Hw y ltac:(by right))). lia.
Qed.

Lemma total_zero {A} (w : A → Z) (l : list A) :
  (∀ x, x ∈ l → (0 ≤ w x)%Z) →
  total w l = 0%Z ↔ ∀ x, x ∈ l → w x = 0%Z.
Proof.
  induction l as [|x l IH]; intros Hw; simpl.
  - split; [by intros _ x Hx%elem_of_nil|done].
  - pose proof (Hw x ltac:(left)) as Hx.
    pose proof (λ y Hy, Hw y ltac:(by right)) as Hl.
    pose proof (total_bounds w l (total w l + 1)) as Hb.
    specialize (IH Hl). split.
    + intros Hsum y [->|Hy]%elem_of_cons.
      * assert (0 ≤ total w l)%Z; [|lia].
        clear -Hl. induction l as [|z l IH]; simpl; [lia|].
        pose proof (Hl z ltac:(left)).
        pose proof (IH (λ y Hy, Hl y ltac:(by right))). lia.
      * apply IH; [|done].
        assert (0 ≤ total w l)%Z; [|lia].
        clear -Hl. induction l as [|z l IH']; simpl; [lia|].
        pose proof (Hl z ltac:(left)).
        pose proof (IH' (λ y Hy, Hl y ltac:(by right))). lia.
    + intros Hall. rewrite (Hall x) by left.
      rewrite (proj2 IH); [done|]. intros y Hy. apply Hall. by right.
Qed.

Lemma length_range (lo hi : Z) : length (range lo hi) = Z.to_nat (hi - lo).
Proof. unfold range. by rewrite length_map, length_seq. Qed.

(** 1 when the two grids differ at [(i, j)], else 0. *)
Definition differs (st goal : grid) (i j : Z) : Z :=
  if decide (cell st (i, j) ≠ cell goal (i, j)) then 1%Z else 0%Z.

Lemma heuristicfunction_total (self : t) (st goal : grid) :
  goal_state self = Some goal →
  square (N self) st → square (N self) goal →
  heuristicfunction self st
  = Ok (total (λ i, total (differs st goal i) (range 0 (N self)))
              (range 0 (N self))).
Proof.
  intros Hgoal Hst Hg. unfold heuristicfunction.
  rewrite (for_each_total _
             (λ i, total (differs st goal i) (range 0 (N self)))); [done|].
  intros i acc Hi%elem_of_range. apply for_each_total.
  intros j acc' Hj%elem_of_range.
  destruct (cell_is_Some _ st (i, j) Hst) as [x Hx]; [split; simpl; lia|].
  destruct (cell_is_Some _ goal (i, j) Hg) as [y Hy]; [split; simpl; lia|].
  rewrite (getitem2_cell (N self) st i j x) by (done || split; simpl; lia).
  unfold get_goal_state. rewrite Hgoal, !Ok_bind.
  rewrite (getitem2_cell (N self) goal i j y) by (done || split; simpl; lia).
  rewrite Ok_bind. unfold differs. rewrite Hx, Hy.
  destruct (decide (x = y)) as [->|Hne].
  - rewrite !decide_False by (by intros []). f_equal. lia.
  - rewrite !decide_True by congruence. done.
Qed.

Lemma heuristic_value (self : t) (st goal : grid) :
  goal_state self = Some goal →
  square (N self) st → square (N self) goal →
  ∃ h, heuristicfunction self st = Ok h
       ∧ (0 ≤ h ≤ N self * N self)%Z
       ∧ (h = 0%Z ↔ st = goal).
Proof.
  intros Hgoal Hst Hg. eexists. split; [by apply heuristicfunction_total|].
  assert (0 ≤ N self)%Z as Hn by (destruct Hst; lia).
  assert (∀ i j, 0 ≤ differs st goal i j ≤ 1)%Z as Hd
    by (intros; unfold differs; case_decide; lia).
  assert (∀ i, 0 ≤ total (differs st goal i) (range 0 (N self)) ≤ N self)%Z
    as Hrow.
  { intros i.
    pose proof (total_bounds (differs st goal i) (range 0 (N self)) 1
                  (λ j _, Hd i j)) as Hb.
    rewrite length_range in Hb. lia. }
  split.
  - pose proof (total_bounds
                  (λ i, total (differs st goal i) (range 0 (N self)))
                  (range 0 (N self)) (N self) (λ i _, Hrow i)) as Hb.
    rewrite length_range in Hb. lia.
  - rewrite total_zero by (intros i _; apply Hrow). split.
    + intros Hall. apply (grid_ext (N self)); [done..|].
      intros [i j] [Hi Hj]. simpl in *.
      pose proof (Hall i ltac:(apply elem_of_range; lia)) as Hi0.
      rewrite total_zero in Hi0 by (intros; apply Hd).
      pose proof (Hi0 j ltac:(apply elem_of_range; lia)) as Hij.
      unfold differs in Hij. case_decide as Hne; [done|].
      destruct (decide (cell st (i, j) = cell goal (i, j))); [done|].
      by destruct Hne.
    + intros -> i _. apply total_zero; [intros; apply Hd|].
      intros j _. unfold differs. by rewrite decide_False by (by intros []).
Qed.

(** X20. On a puzzle that has a [goal_state], and a state of the same
    size, [heuristicfunction] raises nothing; its value lies between 0 and
    N^2, and it is 0 exactly when the state is the goal state. *)
Theorem heuristic_is_zero_at_goal_only (self : t) (st goal : grid) :
  goal_state self = Some goal →
  square (N self) st → square (N self) goal →
  ∃ h, heuristicfunction self st = Ok h
       ∧ (0 ≤ h ≤ N self * N self)%Z
       ∧ (h = 0%Z ↔ st = goal).
Proof. apply heuristic_value. Qed.

(** *** Objects built from a state *)

(** X21. The constructor stores no [goal_state] when it is given a state,
    also when a goal state is passed along; on the object it builds
    [heuristicfunction] raises [AttributeError] for every state of its
    size. *)
Theorem state_given_means_no_goal_state (n : Z) (st : grid)
    (goal : option grid) (fresh : grid * grid) (self : t) :
  init n (Some st) goal fresh = Ok self →
  N self = n ∧ state self = st ∧ goal_state self = None
  ∧ ∀ st', square n st' → heuristicfunction self st' = Raise AttributeError.
Proof.
  unfold init.
  destruct (2 <=? n)%Z eqn:H2; destruct (n <=? 4)%Z eqn:H4; simpl; try done.
  destruct (Z.of_nat (length st) =? n)%Z; simpl; [|done].
  destruct (for_each st tt _); simpl; [|done].
  intros [= <-]. simpl. repeat split.
  intros st' Hsq. apply heuristic_needs_goal_state; simpl; [lia|done..].
Qed.

(** X22. [successor] never returns: on every well-formed puzzle, with or
    without a [goal_state] of its own, and on every state of its size, it
    raises [AttributeError]. *)
Theorem successor_never_returns (self : t) (st : grid) :
  (2 ≤ N self ≤ 4)%Z → square (N self) st →
  successor self st = Raise AttributeError
  ∧ ∀ l, successor self st ≠ Ok l.
Proof. intros Hn Hsq. by rewrite successor_raises. Qed.

(** X23. On the puzzle [Astar.search] gives an answer only for a start
    state that is a goal already, and then the answer is the empty list of
    actions with cost 0 and one expansion; it never reports "no
    solution". *)
Theorem astar_answers_only_solved_starts (self : t) (st : grid) (fuel : nat) r :
  (2 ≤ N self ≤ 4)%Z → square (N self) st →
  search (P:=problem self) fuel st = Some (Ok r) →
  goal_test self st = Ok true ∧ r = (Some [], Fin 0, 1).
Proof.
  intros Hn Hsq. destruct fuel as [|fuel]; [done|].
  destruct (goal_test self st) as [[]|] eqn:Hg.
  - rewrite (AstarFacts.search_goal_start (P:=problem self)) by done.
    by intros [= <-].
  - unfold search. simpl. unfold iteration. simpl.
    rewrite decide_False by set_solver. rewrite Hg, Ok_bind.
    by rewrite successor_raises.
  - unfold search. simpl. unfold iteration. simpl.
    rewrite decide_False by set_solver. by rewrite Hg.
Qed.

(** *** Ties in the queue *)

Lemma row_lt_raises (r1 r2 : list Domino) :
  length r1 = length r2 → r1 ≠ r2 →
  tuple_lt Domino_lt r1 r2 = Raise TypeError.
Proof.
  revert r2. induction r1 as [|a r1 IH]; intros [|b r2] Hlen Hne; try done.
  simpl. case_decide as Hab; [|done]. subst b.
  apply IH; [by injection Hlen|congruence].
Qed.

Lemma grid_lt_raises (n : Z) (g1 g2 : grid) :
  square n g1 → square n g2 → g1 ≠ g2 → state_lt g1 g2 = Raise TypeError.
Proof.
  intros [Hl1 Hr1] [Hl2 Hr2]. assert (length g1 = length g2) as Hlen by lia.
  clear Hl1 Hl2. unfold state_lt.
  revert g2 Hlen Hr2. induction g1 as [|a g1 IH]; intros [|b g2] Hlen Hr2 Hne;
    try done.
  apply Forall_cons in Hr1 as [Ha Hr1]. apply Forall_cons in Hr2 as [Hb Hr2].
  simpl. case_decide as Hab.
  - subst b. apply IH; [done|by injection Hlen|done|congruence].
  - apply row_lt_raises; [lia|done].
Qed.

(** X24. Two queue entries with the same priority and the same path cost
    and with different puzzle states cannot be ordered: the comparison that
    the priority queue makes goes on to the states, then to their tiles,
    and raises [TypeError], since [Domino] has no [<]. *)
Theorem queue_ties_cannot_be_ordered (self : t) (n : Z) (f : num) (g : Z)
    (s1 s2 : grid) (p1 p2 : Z) (a1 a2 : option action) :
  square n s1 → square n s2 → s1 ≠ s2 →
  entry_lt (P:=problem self) (f, g, s1, p1, a1) (f, g, s2, p2, a2)
  = Raise TypeError.
Proof.
  intros H1 H2 Hne. unfold entry_lt.
  rewrite !decide_False by (by intros []). rewrite decide_True by done.
  by apply (grid_lt_raises n).
Qed.

Import Examples.

(** The mismatch count of [one_swap] against [solved]. *)
Lemma heuristic_is_zero_at_goal_only_witness :
  ∃ h, heuristicfunction (mk 2 one_swap (Some solved)) one_swap = Ok h
       ∧ (0 ≤ h ≤ 2 * 2)%Z ∧ (h = 0%Z ↔ one_swap = solved).
Proof.
  apply (heuristic_is_zero_at_goal_only (mk 2 one_swap (Some solved))
           one_swap solved eq_refl);
    (split; [done|by repeat constructor]).
Defined.

(** [FourDominoes(2, one_swap, solved)]. *)
Lemma state_given_means_no_goal_state_witness :
  goal_state (mk 2 one_swap None) = None
  ∧ heuristicfunction (mk 2 one_swap None) solved = Raise AttributeError.
Proof.
  destruct (state_given_means_no_goal_state 2 one_swap (Some solved) ([], [])
              (mk 2 one_swap None)) as (_ & _ & Hg & Hh); [by vm_compute|].
  split; [exact Hg|]. apply Hh. split; [done|]. by repeat constructor.
Defined.

(** The successors of [one_swap] are never handed out. *)
Lemma successor_never_returns_witness :
  successor (mk 2 one_swap (Some solved)) one_swap = Raise AttributeError
  ∧ ∀ l, successor (mk 2 one_swap (Some solved)) one_swap ≠ Ok l.
Proof.
  apply (successor_never_returns (mk 2 one_swap (Some solved)) one_swap).
  - simpl. lia.
  - split; [done|]. by repeat constructor.
Defined.

(** The one answer of A* on the 2x2 puzzle. *)
Lemma astar_answers_only_solved_starts_witness :
  goal_test (mk 2 solved (Some solved)) solved = Ok true
  ∧ (Some (@nil (option action)), Fin 0, 1) = (Some [], Fin 0, 1).
Proof.
  apply (astar_answers_only_solved_starts (mk 2 solved (Some solved)) solved 1).
  - simpl. lia.
  - split; [done|]. by repeat constructor.
  - by vm_compute.
Defined.

(** [one_swap] against [solved], both with priority 2 and cost 2. *)
Lemma queue_ties_cannot_be_ordered_witness :
  entry_lt (P:=astar_puzzle) (Fin 2, 2%Z, one_swap, 0%Z, Some swap_top)
           (Fin 2, 2%Z, solved, 0%Z, Some swap_bottom)
  = Raise TypeError.
Proof.
  apply (queue_ties_cannot_be_ordered _ 2);
    [split; [done|by repeat constructor]..|done].
Defined.

End AstarPuzzleExtras.

(** ** The random constructor *)
Module RandomFacts.

(** *** Cutting [temp] into rows *)

Lemma slice_chunk {A} (l : list A) (i n : nat) :
  (i + 1) * n ≤ length l →
  slice l (Z.of_nat i * Z.of_nat n) ((Z.of_nat i + 1) * Z.of_nat n)
  = take n (drop (i * n) l).
Proof.
  intros Hlen. unfold slice, clip.
  replace (_ * _ <? 0)%Z with false by lia.
  replace (_ * _ <? 0)%Z with false by lia.
  replace (Z.to_nat (Z.min (Z.of_nat i * Z.of_nat n) (Z.of_nat (length l))))
    with (i * n) by lia.
  replace (Z.to_nat (Z.min ((Z.of_nat i + 1) * Z.of_nat n)
                           (Z.of_nat (length l))))
    with ((i + 1) * n) by lia.
  f_equal. lia.
Qed.

Lemma rows_of_chunks (n : nat) (l : list Domino) :
  length l = n * n →
  rows_of (Z.of_nat n) l = map (λ i, take n (drop (i * n) l)) (seq 0 n).
Proof.
  intros Hlen. unfold rows_of, range.
  rewrite Z.sub_0_r, Nat2Z.id, map_map. apply map_ext_in.
  intros i [_ Hi]%in_seq. simpl. apply slice_chunk. nia.
Qed.

Lemma concat_chunks {A} (n m : nat) (l : list A) :
  concat (map (λ i, take n (drop (i * n) l)) (seq 0 m)) = take (m * n) l.
Proof.
  induction m as [|m IH]; [done|].
  rewrite seq_S, map_app, concat_app, IH. simpl.
  rewrite app_nil_r, take_take_drop. f_equal. lia.
Qed.

Lemma concat_rows_of (n : nat) (l : list Domino) :
  length l = n * n → concat (rows_of (Z.of_nat n) l) = l.
Proof.
  intros Hlen. rewrite rows_of_chunks, concat_chunks by done.
  apply take_ge. lia.
Qed.

Lemma rows_of_square (n : nat) (l : list Domino) :
  length l = n * n → square (Z.of_nat n) (rows_of (Z.of_nat n) l).
Proof.
  intros Hlen. rewrite rows_of_chunks by done. split.
  - by rewrite length_map, length_seq.
  - apply Forall_forall. intros row (i & -> & Hi%elem_of_seq)%list_elem_of_fmap.
    rewrite length_take, length_drop. nia.
Qed.

(** *** The tiles drawn *)

Ltac fits_by_cases :=
  intros i j x Hi Hj Hx;
  repeat match goal with
  | H : (?a ≤ ?v < ?b)%Z |- _ =>
      is_var v;
      assert (v = a ∨ (a + 1 ≤ v < b)%Z) as [-> | ?] by lia; clear H;
      [|try lia]
  end;
  vm_compute in Hx; injection Hx as <-;
  (split; intros y H0 Hy; try lia);
  vm_compute in Hy; injection Hy as <-; reflexivity.

Lemma draw_tiles_fit (randint : nat → Z) (n : Z) :
  (2 ≤ n ≤ 4)%Z →
  ∃ temp k, draw_tiles randint n = Ok (temp, k)
    ∧ length temp = Z.to_nat n * Z.to_nat n
    ∧ k = 2 * Z.to_nat n * Z.to_nat n + 2 * Z.to_nat n
    ∧ NoDup temp
    ∧ fits n (rows_of n temp).
Proof.
  intros Hn.
  assert (n = 2 ∨ n = 3 ∨ n = 4)%Z as [-> | [-> | ->]] by lia;
    (eexists _, _; split; [vm_compute; reflexivity|]);
    (split; [reflexivity|]); (split; [reflexivity|]);
    (split; [apply (NoDup_fmap_1 ident), (bool_decide_unpack _);
             by vm_compute|]);
    fits_by_cases.
Qed.

End RandomFacts.

(** *** The uninformed program *)
Module RandomPuzzle.
Import Uninformed Uninformed.FourDominoes.
Import RandomFacts.

Section random.
Context (randint : nat → Z) (shuffle : list Domino → list Domino).
Hypothesis shuffle_permutes : ∀ l, shuffle l ≡ₚ l.

(** X25. Whatever numbers are drawn, and whatever rearrangement the
    shuffle makes, [FourDominoes(N)] with [N] from 2 to 4 raises nothing
    and draws 2N^2 + 2N numbers.  Its state is a grid of [N] rows of [N] tiles, all
    different objects, and a rearrangement of a grid that passes
    [goal_test]: the puzzle it hands out can be solved.  That grid is the
    state the constructor would store if [temp] were not shuffled. *)
Theorem random_puzzle_is_shuffled_solution (n : Z) :
  (2 ≤ n ≤ 4)%Z →
  ∃ self solution draws,
    init_random randint shuffle n = Ok self
    ∧ N self = n
    ∧ square n (state self)
    ∧ NoDup (concat (state self))
    ∧ square n solution
    ∧ goal_test self solution = Ok true
    ∧ concat (state self) ≡ₚ concat solution
    ∧ draw_tiles randint n = Ok (concat solution, draws)
    ∧ Z.of_nat draws = (2 * n * n + 2 * n)%Z
    ∧ init_random randint (λ temp, temp) n = Ok (mk n solution).
Proof.
  intros Hn.
  destruct (draw_tiles_fit randint n Hn)
    as (temp & k & Hd & Hlen & -> & Hnd & Hfit).
  destruct (Z_of_nat_complete n) as [m ->]; [lia|].
  rewrite Nat2Z.id in *.
  assert (length (shuffle temp) = m * m) as Hlen'
    by (by rewrite shuffle_permutes).
  pose proof (rows_of_square m temp Hlen) as Hsq.
  pose proof (rows_of_square m (shuffle temp) Hlen') as Hsq'.
  exists (mk (Z.of_nat m) (rows_of (Z.of_nat m) (shuffle temp))),
         (rows_of (Z.of_nat m) temp).
  eexists.
  unfold init_random, get_random_state. rewrite Hd. simpl.
  replace ((2 <=? Z.of_nat m)%Z && (Z.of_nat m <=? 4)%Z) with true by lia.
  simpl. rewrite !concat_rows_of by done.
  split_and!; try done.
  - by rewrite shuffle_permutes.
  - by apply PuzzleExtras.goal_test_of_fits.
  - lia.
Qed.

End random.

(** The digits 1..9 in turn, and [temp] turned round. *)
Lemma random_puzzle_is_shuffled_solution_witness :
  ∃ self solution draws,
    init_random Examples.digits reverse 2 = Ok self
    ∧ N self = 2%Z
    ∧ square 2 (state self)
    ∧ NoDup (concat (state self))
    ∧ square 2 solution
    ∧ goal_test self solution = Ok true
    ∧ concat (state self) ≡ₚ concat solution
    ∧ draw_tiles Examples.digits 2 = Ok (concat solution, draws)
    ∧ Z.of_nat draws = (2 * 2 * 2 + 2 * 2)%Z
    ∧ init_random Examples.digits (λ temp, temp) 2 = Ok (mk 2 solution).
Proof.
  apply (random_puzzle_is_shuffled_solution Examples.digits reverse
           (λ l, reverse_Permutation l) 2).
  lia.
Defined.

End RandomPuzzle.

(** *** The methods that the two programs share *)
Module TwoPrograms.
Import Informed Informed.FourDominoes.

Lemma goal_test_same (self : t) (st : grid) :
  goal_test self st
  = Uninformed.FourDominoes.goal_test
      (Uninformed.FourDominoes.mk (N self) (state self)) st.
Proof. reflexivity. Qed.

(** X26. [move] and [goal_test] of the informed program behave as those
    of the uninformed program on the same [N] and state: [move] fails in
    the same cases and swaps the same tiles, and it leaves [goal_state] as
    it was; [goal_test] gives the same answer. *)
Theorem informed_puzzle_moves_like_uninformed (self : t) (a : action) :
  move self a
  = (u ← Uninformed.FourDominoes.move
           (Uninformed.FourDominoes.mk (N self) (state self)) a;
     Ok (mk (Uninformed.FourDominoes.N u) (Uninformed.FourDominoes.state u)
            (goal_state self)))
  ∧ ∀ st, goal_test self st
          = Uninformed.FourDominoes.goal_test
              (Uninformed.FourDominoes.mk (N self) (state self)) st.
Proof.
  split; [|apply goal_test_same].
  destruct a as [[r1 c1] [r2 c2]].
  unfold move, Uninformed.FourDominoes.move, valid_coord,
    Uninformed.FourDominoes.valid_coord. simpl.
  destruct (assert _); simpl; [|done].
  destruct (getitem2 _ r2 c2); simpl; [|done].
  destruct (getitem2 _ r1 c1); simpl; [|done].
  destruct (setitem2 _ r1 c1 _); simpl; [|done].
  by destruct (setitem2 _ r2 c2 _).
Qed.

End TwoPrograms.

(** *** The informed program *)
Module AstarRandomPuzzle.
Import Informed Informed.FourDominoes.
Import RandomFacts.

Section random.
Context (randint : nat → Z) (shuffle : list Domino → list Domino).
Hypothesis shuffle_permutes : ∀ l, shuffle l ≡ₚ l.

(** X27. Whatever numbers are drawn, and whatever rearrangement the
    shuffle makes, [FourDominoes(N)] with [N] from 2 to 4 raises nothing
    and stores a [goal_state] beside its state.  Both are grids of [N] rows of [N]
    tiles, the state is a rearrangement of the goal state, and the goal
    state passes [goal_test].  On the object itself [heuristicfunction] is
    defined, and it is 0 on the state exactly when the state is the goal
    state. *)
Theorem random_puzzle_knows_its_goal (n : Z) :
  (2 ≤ n ≤ 4)%Z →
  ∃ self goal,
    init_random randint shuffle n = Ok self
    ∧ N self = n
    ∧ goal_state self = Some goal
    ∧ square n (state self)
    ∧ square n goal
    ∧ goal_test self goal = Ok true
    ∧ concat (state self) ≡ₚ concat goal
    ∧ ∃ h, heuristicfunction self (state self) = Ok h
           ∧ (0 ≤ h ≤ n * n)%Z
           ∧ (h = 0%Z ↔ state self = goal).
Proof.
  intros Hn.
  destruct (draw_tiles_fit randint n Hn)
    as (temp & k & Hd & Hlen & -> & Hnd & Hfit).
  destruct (Z_of_nat_complete n) as [m ->]; [lia|].
  rewrite Nat2Z.id in *.
  assert (length (shuffle temp) = m * m) as Hlen'
    by (by rewrite shuffle_permutes).
  pose proof (rows_of_square m temp Hlen) as Hsq.
  pose proof (rows_of_square m (shuffle temp) Hlen') as Hsq'.
  exists (mk (Z.of_nat m) (rows_of (Z.of_nat m) (shuffle temp))
             (Some (rows_of (Z.of_nat m) temp))),
         (rows_of (Z.of_nat m) temp).
  unfold init_random, get_random_state. rewrite Hd. simpl.
  replace ((2 <=? Z.of_nat m)%Z && (Z.of_nat m <=? 4)%Z) with true by lia.
  simpl. rewrite !concat_rows_of by done.
  split_and!; try done.
  - rewrite TwoPrograms.goal_test_same. by apply PuzzleExtras.goal_test_of_fits.
  - by apply (AstarPuzzleExtras.heuristic_value
                (mk (Z.of_nat m) _ (Some _))).
Qed.

End random.

(** The digits 1..9 in turn, and [temp] turned round. *)
Lemma random_puzzle_knows_its_goal_witness :
  ∃ self goal,
    init_random Examples.digits reverse 2 = Ok self
    ∧ N self = 2%Z
    ∧ goal_state self = Some goal
    ∧ square 2 (state self)
    ∧ square 2 goal
    ∧ goal_test self goal = Ok true
    ∧ concat (state self) ≡ₚ concat goal
    ∧ ∃ h, heuristicfunction self (state self) = Ok h
           ∧ (0 ≤ h ≤ 2 * 2)%Z
           ∧ (h = 0%Z ↔ state self = goal).
Proof.
  apply (random_puzzle_knows_its_goal Examples.digits reverse
           (λ l, reverse_Permutation l) 2).
  lia.
Defined.

End AstarRandomPuzzle.
